(** * youtube-transcript-mcp: session transport bridge and tool dispatch

    A shallow embedding of the TypeScript sources of the repository:

    - [Transport]  : class NextJsSseTransport          (lib/mcp/transport)
    - [Route]      : activeTransports, POST /api/mcp   (api/route.ts and the
                     Cloud Run Express server)
    - [Mcp]        : toolRegistry, listTools, callTool, errText and the
                     tools/call request handler of createMcpServer (mcp.ts)
    - [Server]     : the create_transcript tool         (lib/mcp/server.ts)
    - [Formatter]  : exportTranscript, formatSRT, ...   (transcript-formatter.ts)
    - [HttpClient] : fetchWithRetry                     (http-client)

    Asynchronous functions are modelled in direct style: an [await]ed promise
    that rejects is a [Throw], one that resolves is an [Ok].  The promises of
    a stream writer can also wait for the reader of the stream: in
    [Transport] they are [Pending] until the reader lets them settle.
    Strings are sequences of bytes, the UTF-8 encoding of the strings of the
    source. *)

From Stdlib Require Import ZArith Ascii.
From stdpp Require Import base option list gmap strings pretty.

Set Default Proof Using "Type".
Set Warnings "-register-all".

(* ===================================================================== *)
(** * Js: values shared by all modules                                     *)
(* ===================================================================== *)
Module Js.

(** What a [throw] statement (or a rejected promise) carries in this code
    base.  [HttpError] is the typed failure of the downstream collaborator
    (message, HTTP status, raw response body); [Error] and [TypeError] are the
    built-in classes, both [instanceof Error]; [Thrown s] is any other thrown
    value, [s] being what [String(value)] gives for it. *)
Inductive thrown : Type :=
| Error (message : string)
| TypeError (message : string)
| HttpError (message : string) (status : Z) (bodyText : option string)
| Thrown (rendering : string).

Inductive outcome (A : Type) : Type :=
| Ok (a : A)
| Throw (e : thrown).
Global Arguments Ok {A} a.
Global Arguments Throw {A} e.

Definition is_ok {A} (o : outcome A) : bool :=
  match o with Ok _ => true | Throw _ => false end.

(** The line feed character, written \n in the sources. *)
Definition LF : string := String (ascii_of_nat 10) EmptyString.

(** JavaScript truthiness of a possibly absent string: [null], [undefined]
    and the empty string are falsy. *)
Definition truthy (s : option string) : bool :=
  match s with
  | None => false
  | Some EmptyString => false
  | Some _ => true
  end.

(** [Array.prototype.join] on an array of strings. *)
Fixpoint join (sep : string) (l : list string) : string :=
  match l with
  | [] => EmptyString
  | [x] => x
  | x :: l' => x +:+ sep +:+ join sep l'
  end.

(** The first [n] characters of [pad] repeated without end; empty when
    [pad] is empty.  [rest] is what remains of the current copy. *)
Fixpoint filler (n : nat) (pad rest : string) : string :=
  match n with
  | 0 => EmptyString
  | S n' =>
      match rest with
      | String c rest' => String c (filler n' pad rest')
      | EmptyString =>
          match pad with
          | String c pad' => String c (filler n' pad pad')
          | EmptyString => EmptyString
          end
      end
  end.

(** [String.prototype.padStart] *)
Definition padStart (targetLength : nat) (padString : string) (s : string) : string :=
  filler (targetLength - String.length s) padString padString +:+ s.

(** [k] characters 0. *)
Fixpoint zeros (k : nat) : string :=
  match k with
  | 0 => EmptyString
  | S k' => String "0"%char (zeros k')
  end.

Lemma string_app_assoc (a b c : string) : (a +:+ b) +:+ c = a +:+ b +:+ c.
Proof.
  induction a as [|x a IH]; [done|].
  change (String x ((a +:+ b) +:+ c) = String x (a +:+ b +:+ c)). by rewrite IH.
Qed.

Lemma string_length_app (a b : string) :
  String.length (a +:+ b) = String.length a + String.length b.
Proof.
  induction a as [|c a IH]; [done|].
  change (S (String.length (a +:+ b)) = S (String.length a + String.length b)).
  by rewrite IH.
Qed.

Lemma zeros_length (k : nat) : String.length (zeros k) = k.
Proof. induction k as [|k IH]; simpl; [done|]. by rewrite IH. Qed.

Lemma filler_zeros (k : nat) :
  filler k "0" "" = zeros k ∧ filler k "0" "0" = zeros k.
Proof.
  induction k as [|k [IH0 IH1]]; [done|]. simpl. by rewrite IH0.
Qed.

(** Padding with the character 0 puts the missing zeros in front. *)
Lemma padStart_zeros (n : nat) (s : string) :
  padStart n "0" s = zeros (n - String.length s) +:+ s.
Proof. unfold padStart. by rewrite (proj2 (filler_zeros _)). Qed.

Lemma padStart_length (n : nat) (s : string) :
  String.length (padStart n "0" s) = n `max` String.length s.
Proof. rewrite padStart_zeros, string_length_app, zeros_length. lia. Qed.

End Js.
Import Js.

(* ===================================================================== *)
(** * Transport: class NextJsSseTransport                                  *)
(* ===================================================================== *)
Module Transport.

(** The TransformStream created by [initResponseStream].  The stream object
    outlives the transport's reference to it (the HTTP response holds the
    readable side), so streams live in a store and [_writer] is a reference
    into it.  A stream is its history, the calls made on its writer, and
    its condition. *)
Inductive writer_call : Type :=
| Write (chunk : string)
| Close.

Abbreviation Stream := (list writer_call).

(** The condition of a stream, as the Streams standard defines it for a
    [new TransformStream()] (identity transform, high-water marks 1 and 0),
    seen from the writer:
    - [Unread n]: writable, but nobody reads the readable side; a write is
      not taken before a read asks for it, so [n] writes wait;
    - [Flowing]: writable, and the consumer (the HTTP response) reads what
      is written;
    - [Closing]: [writer.close()] was called behind writes that still wait;
    - [Closed]: [writer.close()] resolved;
    - [Errored reason]: the reader cancelled the readable side, which puts
      the writable side in error with the reason of the cancel. *)
Inductive condition : Type :=
| Unread (waiting : nat)
| Flowing
| Closing
| Closed
| Errored (reason : thrown).

(** What has become of the promise of a call once the call has done all it
    can do without the reader: it resolved, it rejected, or it waits for the
    reader. *)
Inductive settlement : Type :=
| Settled (o : outcome unit)
| Pending.

(** The TypeError of a writer whose stream is closing, closed or (for
    [close]) in error.  Its wording differs between platforms: what is
    proved below depends on its class alone. *)
Definition InvalidState : thrown :=
  TypeError "Invalid state: WritableStream is closed".

Definition rejects_with_TypeError (s : settlement) : Prop :=
  ∃ message, s = Settled (Throw (TypeError message)).

(** [writer.write(chunk)] *)
Definition writer_write (c : condition) : settlement * condition :=
  match c with
  | Unread n => (Pending, Unread (S n))
  | Flowing => (Settled (Ok ()), Flowing)
  | Closing => (Settled (Throw InvalidState), Closing)
  | Closed => (Settled (Throw InvalidState), Closed)
  | Errored reason => (Settled (Throw reason), Errored reason)
  end.

(** [writer.close()]: closing needs no reader unless writes still wait. *)
Definition writer_close (c : condition) : settlement * condition :=
  match c with
  | Unread 0 => (Settled (Ok ()), Closed)
  | Unread (S _) => (Pending, Closing)
  | Flowing => (Settled (Ok ()), Closed)
  | Closing => (Settled (Throw InvalidState), Closing)
  | Closed => (Settled (Throw InvalidState), Closed)
  | Errored reason => (Settled (Throw InvalidState), Errored reason)
  end.

Record TransformStream : Type := mkStream {
  calls : Stream;
  state : condition;
}.

(** What the consumer of the readable side can do: start (or go on)
    reading, stop reading, cancel. *)
Inductive reader_event : Type :=
| Reads
| Stops
| Cancels (reason : thrown).

Section NextJsSseTransport.

(** [Message] is JSONRPCMessage; [R] is the state of the protocol runtime
    that owns the inbound message handler. *)
Context {Message R : Type}.
Variable JSON_stringify : Message → string.

Definition handler : Type := Message → R → outcome unit * R.

Record NextJsSseTransport : Type := mkTransport {
  store : list TransformStream;
  _writer : option nat;
  _messageHandler : option handler;
}.

(** The histories of the streams this transport created. *)
Definition streams (t : NextJsSseTransport) : list Stream := calls <$> store t.

(** [new NextJsSseTransport()] *)
Definition new : NextJsSseTransport :=
  {| store := []; _writer := None; _messageHandler := None |}.

(** A call on the writer [w]: the call is recorded on the stream and
    settles as the condition of the stream has it.  (A reference always
    designates a stream of the store; the last case is there for totality.) *)
Definition writer_invoke (w : nat) (c : writer_call) (t : NextJsSseTransport)
  : settlement * NextJsSseTransport :=
  match store t !! w with
  | Some s =>
      let '(res, state') :=
        match c with
        | Write _ => writer_write (state s)
        | Close => writer_close (state s)
        end in
      (res,
       {| store := <[w := {| calls := calls s ++ [c]; state := state' |}]> (store t);
          _writer := _writer t;
          _messageHandler := _messageHandler t |})
  | None => (Settled (Throw (TypeError "Invalid writer")), t)
  end.

Definition start (t : NextJsSseTransport) : outcome unit :=
  match _writer t with
  | None => Throw (Error "Transport not initialized with a response stream writer")
  | Some _ => Ok ()
  end.

(** [set onmessage(handler)] *)
Definition set_onmessage (h : handler) (t : NextJsSseTransport) : NextJsSseTransport :=
  {| store := store t; _writer := _writer t; _messageHandler := Some h |}.

(** [get onmessage()] *)
Definition get_onmessage (t : NextJsSseTransport) : option handler :=
  _messageHandler t.

(** [set onclose] and [set onerror] have empty bodies. *)
Definition set_onclose (t : NextJsSseTransport) : NextJsSseTransport := t.
Definition set_onerror (t : NextJsSseTransport) : NextJsSseTransport := t.

Definition send (message : Message) (t : NextJsSseTransport)
  : settlement * NextJsSseTransport :=
  match _writer t with
  | None => (Settled (Throw (Error "Transport not active or writer closed")), t)
  | Some w =>
      let event := "message" in
      let data := JSON_stringify message in
      let payload := "event: " +:+ event +:+ LF +:+ "data: " +:+ data +:+ LF +:+ LF in
      writer_invoke w (Write payload) t
  end.

Definition sendEndpoint (endpoint : string) (t : NextJsSseTransport)
  : settlement * NextJsSseTransport :=
  match _writer t with
  | None => (Settled (Throw (Error "Transport not active or writer closed")), t)
  | Some w =>
      let event := "endpoint" in
      let payload := "event: " +:+ event +:+ LF +:+ "data: " +:+ endpoint +:+ LF +:+ LF in
      writer_invoke w (Write payload) t
  end.

(** [close]: the assignment [this._writer = null] is only reached when the
    awaited [writer.close()] has resolved.  When it rejects the writer stays;
    when it waits for the reader the assignment is made by [reader] below,
    at the time the reader lets it resolve. *)
Definition close (t : NextJsSseTransport) : settlement * NextJsSseTransport :=
  match _writer t with
  | Some w =>
      match writer_invoke w Close t with
      | (Settled (Ok _), t') =>
          (Settled (Ok ()), {| store := store t'; _writer := None;
                               _messageHandler := _messageHandler t' |})
      | (res, t') => (res, t')
      end
  | None => (Settled (Ok ()), t)
  end.

(** [initResponseStream]: a fresh TransformStream, which nobody reads yet;
    its writer is kept. *)
Definition initResponseStream (t : NextJsSseTransport) : NextJsSseTransport :=
  {| store := store t ++ [{| calls := []; state := Unread 0 |}];
     _writer := Some (length (store t));
     _messageHandler := _messageHandler t |}.

Definition handlePostMessage (message : Message) (t : NextJsSseTransport) (r : R)
  : outcome unit * R :=
  match _messageHandler t with
  | Some h => h message r
  | None => (Ok (), r)
  end.

(** What the consumer of the stream [w] does to the transport.  Reading
    takes the writes that wait, and lets a [close] that waits behind them
    resolve: the call of [close] suspended at its [await] then runs
    [this._writer = null].  A cancel rejects whatever waits; a stream that
    is closed or in error stays as it is. *)
Definition reader (w : nat) (e : reader_event) (t : NextJsSseTransport)
  : NextJsSseTransport :=
  match store t !! w with
  | None => t
  | Some s =>
      let becomes (c : condition) (writer : option nat) :=
        {| store := <[w := {| calls := calls s; state := c |}]> (store t);
           _writer := writer;
           _messageHandler := _messageHandler t |} in
      match e, state s with
      | Reads, Unread _ => becomes Flowing (_writer t)
      | Reads, Closing => becomes Closed None
      | Stops, Flowing => becomes (Unread 0) (_writer t)
      | Cancels reason, (Unread _ | Flowing | Closing) =>
          becomes (Errored reason) (_writer t)
      | _, _ => t
      end
  end.

(** ** The transport as a state machine

    What the rest of the program, and the reader of a stream, can do with a
    transport, one step at a time.  A step is over when the call has
    settled or waits for the reader; calls that are made while an earlier
    one is between its [await] and its continuation are not considered. *)
Inductive op : Type :=
| OpInitResponseStream
| OpStart
| OpSetOnmessage (h : handler)
| OpSend (message : Message)
| OpSendEndpoint (endpoint : string)
| OpClose
| OpHandlePostMessage (message : Message)
| OpReader (w : nat) (e : reader_event).

Definition step (o : op) (st : NextJsSseTransport * R)
  : settlement * (NextJsSseTransport * R) :=
  let '(t, r) := st in
  match o with
  | OpInitResponseStream => (Settled (Ok ()), (initResponseStream t, r))
  | OpStart => (Settled (start t), (t, r))
  | OpSetOnmessage h => (Settled (Ok ()), (set_onmessage h t, r))
  | OpSend m => let '(res, t') := send m t in (res, (t', r))
  | OpSendEndpoint e => let '(res, t') := sendEndpoint e t in (res, (t', r))
  | OpClose => let '(res, t') := close t in (res, (t', r))
  | OpHandlePostMessage m =>
      let '(res, r') := handlePostMessage m t r in (Settled res, (t, r'))
  | OpReader w e => (Settled (Ok ()), (reader w e t, r))
  end.

Fixpoint run (ops : list op) (st : NextJsSseTransport * R) : NextJsSseTransport * R :=
  match ops with
  | [] => st
  | o :: ops' => run ops' (step o st).2
  end.

(** The conditions named by the specification. *)
Definition NotInitialized : thrown :=
  Error "Transport not initialized with a response stream writer".
Definition ChannelClosed : thrown :=
  Error "Transport not active or writer closed".

(** The invariant of the writer reference: it designates a stream of the
    store, and never one that [close] has closed. *)
Definition wf (t : NextJsSseTransport) : Prop :=
  ∀ w, _writer t = Some w → ∃ s, store t !! w = Some s ∧ state s ≠ Closed.

(** ** The writer reference stays well formed *)

Lemma wf_new : wf new.
Proof. intros w [=]. Qed.

Lemma wf_initResponseStream t : wf (initResponseStream t).
Proof.
  intros w [= <-]. exists {| calls := []; state := Unread 0 |}. split; [|done].
  simpl. by rewrite lookup_app_r, Nat.sub_diag.
Qed.

Lemma writer_write_open c : c ≠ Closed → (writer_write c).2 ≠ Closed.
Proof. by destruct c. Qed.

Lemma wf_write t w chunk : wf t → wf (writer_invoke w (Write chunk) t).2.
Proof.
  intros Hwf. unfold writer_invoke. destruct (store t !! w) as [s|] eqn:Hlk; [|done].
  destruct (writer_write (state s)) as [res state'] eqn:E. simpl.
  intros w' Hw'. simpl in Hw'. destruct (Hwf w' Hw') as (s' & Hlk' & Hop).
  destruct (decide (w' = w)) as [->|Hne]; simpl.
  - rewrite list_lookup_insert_eq by (by eapply lookup_lt_Some).
    eexists. split; [done|]. simpl. simplify_eq.
    pose proof (writer_write_open (state s) Hop) as H. by rewrite E in H.
  - rewrite list_lookup_insert_ne by done. by exists s'.
Qed.

Lemma wf_send t m : wf t → wf (send m t).2.
Proof.
  intros Hwf. unfold send. destruct (_writer t) as [w|] eqn:Hwr; [|done].
  by apply wf_write.
Qed.

Lemma wf_sendEndpoint t e : wf t → wf (sendEndpoint e t).2.
Proof.
  intros Hwf. unfold sendEndpoint. destruct (_writer t) as [w|] eqn:Hwr; [|done].
  by apply wf_write.
Qed.

(** How [close] ends on a transport that holds a writer. *)
Lemma close_held t w s :
  _writer t = Some w → store t !! w = Some s →
  close t
  = match writer_close (state s) with
    | (Settled (Ok _), c) =>
        (Settled (Ok ()),
         {| store := <[w := {| calls := calls s ++ [Close]; state := c |}]> (store t);
            _writer := None; _messageHandler := _messageHandler t |})
    | (res, c) =>
        (res,
         {| store := <[w := {| calls := calls s ++ [Close]; state := c |}]> (store t);
            _writer := Some w; _messageHandler := _messageHandler t |})
    end.
Proof.
  intros Hwr Hlk. unfold close, writer_invoke. rewrite Hwr, Hlk.
  destruct (writer_close (state s)) as [[[[]|e]|] c]; simpl; by rewrite ?Hwr.
Qed.

Lemma close_absent t : _writer t = None → close t = (Settled (Ok ()), t).
Proof. intros H. unfold close. by rewrite H. Qed.

Lemma wf_close t : wf t → wf (close t).2.
Proof.
  intros Hwf. destruct (_writer t) as [w|] eqn:Hwr; [|by rewrite close_absent].
  destruct (Hwf w Hwr) as (s & Hlk & Hop).
  rewrite (close_held t w s) by done.
  assert (Hlt : w < length (store t)) by (by eapply lookup_lt_Some).
  destruct (state s) as [[|n]| | | |reason] eqn:E; simpl; try done;
    intros w' [= <-]; simpl; rewrite list_lookup_insert_eq by done;
    eexists; (split; [done|done]).
Qed.

Lemma wf_reader t w e : wf t → wf (reader w e t).
Proof.
  intros Hwf. unfold reader. destruct (store t !! w) as [s|] eqn:Hlk; [|done].
  assert (Hlt : w < length (store t)) by (by eapply lookup_lt_Some).
  assert (Hkeep : ∀ c, c ≠ Closed →
            wf {| store := <[w := {| calls := calls s; state := c |}]> (store t);
                  _writer := _writer t; _messageHandler := _messageHandler t |}).
  { intros c Hc w' Hw'. simpl in *. destruct (Hwf w' Hw') as (s' & Hlk' & Hop).
    destruct (decide (w' = w)) as [->|Hne].
    - rewrite list_lookup_insert_eq by done. by eexists.
    - rewrite list_lookup_insert_ne by done. by exists s'. }
  destruct e as [| |reason], (state s) as [n| | | |reason']; try done;
    try (by apply Hkeep).
Qed.

Lemma wf_step o t r : wf t → wf (step o (t, r)).2.1.
Proof.
  intros Hwf. destruct o; simpl.
  - by apply wf_initResponseStream.
  - done.
  - done.
  - pose proof (wf_send t message Hwf). by destruct (send message t).
  - pose proof (wf_sendEndpoint t endpoint Hwf). by destruct (sendEndpoint endpoint t).
  - pose proof (wf_close t Hwf). by destruct (close t).
  - by destruct (handlePostMessage message t r).
  - by apply wf_reader.
Qed.

Lemma wf_run ops t r : wf t → wf (run ops (t, r)).1.
Proof.
  revert t r. induction ops as [|o ops IH]; intros t r Hwf; [done|].
  pose proof (wf_step o t r Hwf) as H.
  change (wf (run ops (step o (t, r)).2).1).
  destruct (step o (t, r)) as [res [t' r']]. apply IH. exact H.
Qed.

(** Once [close] has resolved, calling it again changes nothing. *)
Lemma close_resolved t t1 : close t = (Settled (Ok ()), t1) → _writer t1 = None.
Proof.
  unfold close. destruct (_writer t) as [w|] eqn:Hwr; [|by intros [= <-]].
  destruct (writer_invoke w Close t) as [[[[]|e]|] t'] eqn:E; [|discriminate..].
  by intros [= <-].
Qed.



(** A [close] that waits behind unread writes resolves when the reader
    reads, and the writer is dropped then; [close] is a no-op from there. *)
Lemma pending_close_resolves t w s :
  store t !! w = Some s → state s = Closing →
  _writer (reader w Reads t) = None ∧
  state <$> store (reader w Reads t) !! w = Some Closed ∧
  close (reader w Reads t) = (Settled (Ok ()), reader w Reads t).
Proof.
  intros Hlk Hcl.
  assert (Hlt : w < length (store t)) by (by eapply lookup_lt_Some).
  assert (Hwr : _writer (reader w Reads t) = None).
  { unfold reader. by rewrite Hlk, Hcl. }
  split_and!; [done| |by apply close_absent].
  unfold reader. rewrite Hlk, Hcl. simpl. by rewrite list_lookup_insert_eq.
Qed.

(** A stream that [close] has closed is out of reach: no step changes it. *)
Lemma closed_is_frozen o t r w s :
  wf t → store t !! w = Some s → state s = Closed →
  store (step o (t, r)).2.1 !! w = Some s.
Proof.
  intros Hwf Hlk Hcl.
  assert (Hwrite : ∀ w' c, _writer t = Some w' →
            store (writer_invoke w' c t).2 !! w = Some s).
  { intros w' c Hwr. destruct (Hwf w' Hwr) as (s' & Hlk' & Hop).
    unfold writer_invoke. rewrite Hlk'.
    destruct (match c with Write _ => _ | Close => _ end) as [res state']. simpl.
    rewrite list_lookup_insert_ne; [done|]. intros ->. congruence. }
  destruct o; simpl; try done.
  - by apply lookup_app_l_Some.
  - unfold send. destruct (_writer t) as [w'|] eqn:Hwr; [|done].
    match goal with |- context [writer_invoke ?a ?c t] =>
      pose proof (Hwrite a c eq_refl) as H; by destruct (writer_invoke a c t) end.
  - unfold sendEndpoint. destruct (_writer t) as [w'|] eqn:Hwr; [|done].
    match goal with |- context [writer_invoke ?a ?c t] =>
      pose proof (Hwrite a c eq_refl) as H; by destruct (writer_invoke a c t) end.
  - unfold close. destruct (_writer t) as [w'|] eqn:Hwr; [|done].
    pose proof (Hwrite w' Close eq_refl) as H.
    by destruct (writer_invoke w' Close t) as [[[[]|e]|] t'].
  - by destruct (handlePostMessage message t r).
  - unfold reader. destruct (store t !! w0) as [s0|] eqn:Hlk0; [|done].
    destruct (decide (w0 = w)) as [->|Hne].
    + assert (s0 = s) as -> by congruence. rewrite Hcl. by destruct e.
    + destruct e, (state s0); simpl; try done;
        by rewrite list_lookup_insert_ne.
Qed.

(** ** What the channel carries *)

(** The chunks written by [send] and by [sendEndpoint]. *)
Definition message_event (message : Message) : string :=
  "event: " +:+ "message" +:+ LF +:+ "data: " +:+ JSON_stringify message +:+ LF +:+ LF.
Definition endpoint_event (endpoint : string) : string :=
  "event: " +:+ "endpoint" +:+ LF +:+ "data: " +:+ endpoint +:+ LF +:+ LF.

(** With a writer held, [send] and [sendEndpoint] call it whatever has
    become of the stream. *)
Lemma write_held t w s chunk :
  store t !! w = Some s →
  writer_invoke w (Write chunk) t
  = ((writer_write (state s)).1,
     {| store := <[w := {| calls := calls s ++ [Write chunk];
                           state := (writer_write (state s)).2 |}]> (store t);
        _writer := _writer t;
        _messageHandler := _messageHandler t |}).
Proof.
  intros Hlk. unfold writer_invoke. rewrite Hlk.
  by destruct (writer_write (state s)).
Qed.

Lemma streams_insert (l : list TransformStream) w s s' :
  l !! w = Some s → calls <$> <[w := s']> l = <[w := calls s']> (calls <$> l).
Proof. intros _. by rewrite list_fmap_insert. Qed.

Lemma streams_insert_same (l : list TransformStream) w s c :
  l !! w = Some s → calls <$> <[w := {| calls := calls s; state := c |}]> l = calls <$> l.
Proof.
  intros Hlk. rewrite list_fmap_insert. simpl. apply list_insert_id.
  by rewrite list_lookup_fmap, Hlk.
Qed.

Lemma streams_reader w e t : streams (reader w e t) = streams t.
Proof.
  unfold reader, streams. destruct (store t !! w) as [s|] eqn:Hlk; [|done].
  destruct e, (state s); simpl; try done; by apply streams_insert_same.
Qed.

(** ** The claims about the transport *)

(** C6, as amended — the write side is guarded by the writer reference
    alone.  [start] resolves exactly when the transport holds a writer and
    otherwise fails with NotInitialized; [send] and [sendEndpoint] fail with
    ChannelClosed, and leave the transport untouched, when no writer is
    held, which is the case of a new transport and of a transport whose
    [close] resolved; with a writer held they call it whatever has become
    of the stream, and the promise settles as the stream has it: once the
    reader has cancelled, it rejects with the reason of the cancel.  In
    every state reached from a new transport a stream that [close] has
    closed is not referenced, and no later step changes it. *)
Theorem sink_guard (t : NextJsSseTransport) (message : Message) (endpoint : string) :
  (start t = Ok () ↔ is_Some (_writer t)) ∧
  (start t ≠ Ok () → start t = Throw NotInitialized) ∧
  (_writer t = None →
     send message t = (Settled (Throw ChannelClosed), t) ∧
     sendEndpoint endpoint t = (Settled (Throw ChannelClosed), t)) ∧
  _writer new = None ∧
  (∀ t', close t = (Settled (Ok ()), t') → _writer t' = None) ∧
  (∀ w s, _writer t = Some w → store t !! w = Some s →
     (send message t).1 = (writer_write (state s)).1 ∧
     streams (send message t).2 !! w = Some (calls s ++ [Write (message_event message)]) ∧
     (sendEndpoint endpoint t).1 = (writer_write (state s)).1 ∧
     streams (sendEndpoint endpoint t).2 !! w
     = Some (calls s ++ [Write (endpoint_event endpoint)]) ∧
     (∀ reason, state s = Errored reason →
        (send message t).1 = Settled (Throw reason) ∧
        (sendEndpoint endpoint t).1 = Settled (Throw reason))) ∧
  (∀ ops r, t = (run ops (new, r)).1 →
     ∀ w s, store t !! w = Some s → state s = Closed →
       _writer t ≠ Some w ∧
       ∀ o r', store (step o (t, r')).2.1 !! w = Some s).
Proof.
  split_and!.
  - unfold start. destruct (_writer t); split; intros H; try done.
  - unfold start, NotInitialized. by destruct (_writer t).
  - intros H. unfold send, sendEndpoint, ChannelClosed. by rewrite H.
  - reflexivity.
  - intros t' H. by eapply close_resolved.
  - intros w s Hwr Hlk.
    assert (Hlt : w < length (store t)) by (by eapply lookup_lt_Some).
    unfold send, sendEndpoint. rewrite Hwr, !(write_held t w s _ Hlk).
    unfold streams. simpl. rewrite !list_lookup_fmap, !list_lookup_insert_eq by done.
    split_and!; try done. by intros reason ->.
  - intros ops r -> w s Hlk Hcl.
    pose proof (wf_run ops new r wf_new) as Hwf. split.
    + intros Hwr. destruct (Hwf w Hwr) as (s' & Hlk' & Hop). congruence.
    + intros o r'. by apply closed_is_frozen.
Qed.


(** C8, as amended — [handlePostMessage] is best effort and total, and
    looks at the handler alone.  In every transport state, whatever the
    writer, an installed message handler receives the message; with no
    handler installed the call resolves, nothing is delivered, the
    transport is unchanged and the message is not kept for a later
    delivery. *)
Theorem handlePostMessage_best_effort
    (t : NextJsSseTransport) (message : Message) (r : R) :
  (∀ h, _messageHandler t = Some h → handlePostMessage message t r = h message r) ∧
  (_messageHandler t = None →
     handlePostMessage message t r = (Ok (), r) ∧
     ∀ ops, run (OpHandlePostMessage message :: ops) (t, r) = run ops (t, r)) ∧
  (step (OpHandlePostMessage message) (t, r)).2.1 = t.
Proof.
  split_and!.
  - intros h H. unfold handlePostMessage. by rewrite H.
  - intros H. unfold handlePostMessage. simpl. unfold handlePostMessage.
    by rewrite H.
  - simpl. by destruct (handlePostMessage message t r).
Qed.

(** ** Runs of calls *)

(** What has become of each step of a run, in order. *)
Fixpoint results (ops : list op) (st : NextJsSseTransport * R) : list settlement :=
  match ops with
  | [] => []
  | o :: ops' => (step o st).1 :: results ops' (step o st).2
  end.

Definition chunks_of (o : op) : list writer_call :=
  match o with
  | OpSend m => [Write (message_event m)]
  | OpSendEndpoint e => [Write (endpoint_event e)]
  | _ => []
  end.

(** Steps that neither acquire a writer nor call [close]. *)
Definition keeps_writer (o : op) : bool :=
  match o with
  | OpInitResponseStream | OpClose => false
  | _ => true
  end.

Definition acquires (o : op) : bool :=
  match o with OpInitResponseStream => true | _ => false end.

Definition writes (o : op) : bool :=
  match o with OpSend _ | OpSendEndpoint _ => true | _ => false end.

(** No call of [close] is suspended behind writes that wait. *)
Definition no_pending_close (t : NextJsSseTransport) : bool :=
  forallb (λ s, match state s with Closing => false | _ => true end) (store t).

Lemma forallb_lookup {A} (f : A → bool) (l : list A) :
  forallb f l = true ↔ ∀ i x, l !! i = Some x → f x = true.
Proof.
  induction l as [|y l IH]; simpl.
  - split; [|done]. intros _ i x H. by rewrite lookup_nil in H.
  - rewrite andb_true_iff, IH. split.
    + intros [Hy Hl] [|i] x H; simpl in H; [by simplify_eq|by eapply Hl].
    + intros H. split; [by apply (H 0)|]. intros i x Hi. by apply (H (S i)).
Qed.

Lemma step_keeps_writer o t r w s :
  _writer t = Some w → store t !! w = Some s → no_pending_close t = true →
  keeps_writer o = true →
  _writer (step o (t, r)).2.1 = Some w ∧
  (∃ s', store (step o (t, r)).2.1 !! w = Some s' ∧ calls s' = calls s ++ chunks_of o) ∧
  no_pending_close (step o (t, r)).2.1 = true ∧
  (writes o = true → (step o (t, r)).1 = (writer_write (state s)).1).
Proof.
  intros Hwr Hlk Hnp Hk.
  assert (Hlt : w < length (store t)) by (by eapply lookup_lt_Some).
  assert (Hcalm : state s ≠ Closing).
  { intros E. unfold no_pending_close in Hnp. rewrite forallb_lookup in Hnp.
    specialize (Hnp w s Hlk). by rewrite E in Hnp. }
  assert (Hins : ∀ i x, match state x with Closing => False | _ => True end →
            forallb (λ s, match state s with Closing => false | _ => true end)
              (<[i := x]> (store t)) = true).
  { intros i x Hx. unfold no_pending_close in Hnp. rewrite forallb_lookup in Hnp |- *.
    intros j y Hj. apply list_lookup_insert_Some in Hj as [(-> & <- & _)|[_ Hj]].
    - by destruct (state x).
    - by eapply Hnp. }
  destruct o; try discriminate; simpl.
  - unfold start. rewrite Hwr, app_nil_r. split_and!; try done. by exists s.
  - rewrite app_nil_r. split_and!; try done. by exists s.
  - unfold send. rewrite Hwr, (write_held t w s _ Hlk). simpl.
    rewrite list_lookup_insert_eq by done. split_and!; try done.
    + by eexists.
    + apply Hins. simpl. by destruct (state s).
  - unfold sendEndpoint. rewrite Hwr, (write_held t w s _ Hlk). simpl.
    rewrite list_lookup_insert_eq by done. split_and!; try done.
    + by eexists.
    + apply Hins. simpl. by destruct (state s).
  - destruct (handlePostMessage message t r). simpl. rewrite app_nil_r.
    split_and!; try done. by exists s.
  - rewrite app_nil_r. unfold reader.
    destruct (store t !! w0) as [s0|] eqn:Hlk0; [|by split_and!; try done; exists s].
    assert (Hcalm0 : state s0 ≠ Closing).
    { intros E. unfold no_pending_close in Hnp. rewrite forallb_lookup in Hnp.
      specialize (Hnp w0 s0 Hlk0). by rewrite E in Hnp. }
    assert (Hsame : ∀ c, ∃ s', <[w0 := {| calls := calls s0; state := c |}]> (store t) !! w
                               = Some s' ∧ calls s' = calls s).
    { intros c. destruct (decide (w0 = w)) as [->|Hne].
      - rewrite list_lookup_insert_eq by done. eexists. split; [done|]. simpl. congruence.
      - rewrite list_lookup_insert_ne by done. by exists s. }
    destruct e, (state s0) eqn:E0; simpl; try done;
      try (by split_and!; try done; exists s);
      (split_and!; [done|by apply Hsame|by apply Hins|done]).
Qed.

Lemma run_keeps_writer ops t r w s :
  _writer t = Some w → store t !! w = Some s → no_pending_close t = true →
  forallb keeps_writer ops = true →
  _writer (run ops (t, r)).1 = Some w ∧
  streams (run ops (t, r)).1 !! w = Some (calls s ++ concat (List.map chunks_of ops)) ∧
  (∀ i o, ops !! i = Some o → writes o = true →
     ∃ c, state <$> store (run (take i ops) (t, r)).1 !! w = Some c ∧
          results ops (t, r) !! i = Some (writer_write c).1).
Proof.
  revert t r s. induction ops as [|o ops IH]; intros t r s Hwr Hlk Hnp Hall.
  - simpl. rewrite app_nil_r. unfold streams. rewrite list_lookup_fmap, Hlk.
    split_and!; try done; intros i o H; by rewrite lookup_nil in H.
  - simpl in Hall. apply andb_true_iff in Hall as [Ho Hall].
    destruct (step_keeps_writer o t r w s Hwr Hlk Hnp Ho)
      as (Hwr' & (s' & Hlk' & Hcalls) & Hnp' & Hres).
    change (run (o :: ops) (t, r)) with (run ops (step o (t, r)).2).
    change (results (o :: ops) (t, r))
      with ((step o (t, r)).1 :: results ops (step o (t, r)).2).
    destruct (step o (t, r)) as [res [t' r']] eqn:Est. simpl in Hwr', Hlk', Hnp', Hres.
    destruct (IH t' r' s' Hwr' Hlk' Hnp' Hall) as (IH1 & IH2 & IH3).
    split_and!.
    + exact IH1.
    + simpl. rewrite IH2, Hcalls. by rewrite <- app_assoc.
    + intros [|i] o' H Hw'; simpl in H.
      * injection H as <-. exists (state s). simpl. rewrite Hlk. by rewrite Hres.
      * destruct (IH3 i o' H Hw') as (c & Hc & Hr). exists c.
        change (take (S i) (o :: ops)) with (o :: take i ops).
        change (run (o :: take i ops) (t, r)) with (run (take i ops) (step o (t, r)).2).
        rewrite Est. by split.
Qed.

(** X1 — ordering on one channel.  On a transport that holds a writer and
    has no [close] suspended, a run of steps that neither acquire a writer
    nor call [close] (the reader may start, stop or cancel in between)
    keeps the writer and leaves on the held stream the calls that were
    there before followed by exactly one write per [send] and
    [sendEndpoint], in call order, with the event of that call as chunk.
    The promise of each of these calls settles as the stream has it at the
    time of the call: it resolves when the stream is being read, waits when
    nobody reads, and rejects with the reason of the cancel when the reader
    has cancelled. *)
Theorem events_in_call_order
    (ops : list op) (t : NextJsSseTransport) (r : R) (w : nat) (s : Stream) :
  _writer t = Some w →
  streams t !! w = Some s →
  no_pending_close t = true →
  forallb keeps_writer ops = true →
  _writer (run ops (t, r)).1 = Some w ∧
  streams (run ops (t, r)).1 !! w = Some (s ++ concat (List.map chunks_of ops)) ∧
  (∀ i o, ops !! i = Some o → writes o = true →
     ∃ c, state <$> store (run (take i ops) (t, r)).1 !! w = Some c ∧
          match c with
          | Flowing => results ops (t, r) !! i = Some (Settled (Ok ()))
          | Unread _ => results ops (t, r) !! i = Some Pending
          | Errored reason => results ops (t, r) !! i = Some (Settled (Throw reason))
          | Closing | Closed =>
              ∃ res, results ops (t, r) !! i = Some res ∧ rejects_with_TypeError res
          end).
Proof.
  intros Hwr Hlk Hnp Hall. unfold streams in Hlk. rewrite list_lookup_fmap in Hlk.
  destruct (store t !! w) as [ts|] eqn:Hts; [|done]. injection Hlk as <-.
  destruct (run_keeps_writer ops t r w ts Hwr Hts Hnp Hall) as (H1 & H2 & H3).
  split_and!; [done|done|].
  intros i o Hi Hw. destruct (H3 i o Hi Hw) as (c & Hc & Hr).
  exists c. split; [done|]. destruct c; try done; eexists; (split; [done|by eexists]).
Qed.

Lemma step_without_writer o t r :
  _writer t = None → acquires o = false →
  _writer (step o (t, r)).2.1 = None ∧
  streams (step o (t, r)).2.1 = streams t ∧
  (step o (t, r)).1
  = match o with
    | OpStart => Settled (Throw NotInitialized)
    | OpSend _ | OpSendEndpoint _ => Settled (Throw ChannelClosed)
    | OpHandlePostMessage m => Settled (handlePostMessage m t r).1
    | _ => Settled (Ok ())
    end.
Proof.
  intros Hwr Ha. destruct o; try discriminate; simpl.
  - unfold start. by rewrite Hwr.
  - done.
  - unfold send. by rewrite Hwr.
  - unfold sendEndpoint. by rewrite Hwr.
  - by rewrite close_absent.
  - by destruct (handlePostMessage message t r).
  - split_and!; [|by apply streams_reader|done].
    unfold reader. destruct (store t !! w) as [s|]; [|done].
    by destruct e, (state s).
Qed.

(** X2 — without a writer nothing reaches any stream.  On a transport that
    holds no writer (never initialised, or closed), as long as
    [initResponseStream] is not called again, every [start] fails with
    NotInitialized, every [send] and [sendEndpoint] fails with
    ChannelClosed, [close] resolves, and the stream store stays exactly as
    it was. *)
Theorem no_writer_no_write
    (ops : list op) (t : NextJsSseTransport) (r : R) :
  _writer t = None →
  forallb (λ o, negb (acquires o)) ops = true →
  _writer (run ops (t, r)).1 = None ∧
  streams (run ops (t, r)).1 = streams t ∧
  (∀ i o, ops !! i = Some o →
     match o with
     | OpStart => results ops (t, r) !! i = Some (Settled (Throw NotInitialized))
     | OpSend _ | OpSendEndpoint _ =>
         results ops (t, r) !! i = Some (Settled (Throw ChannelClosed))
     | OpClose | OpSetOnmessage _ => results ops (t, r) !! i = Some (Settled (Ok ()))
     | _ => True
     end).
Proof.
  revert t r. induction ops as [|o ops IH]; intros t r Hwr Hall.
  - split_and!; try done; intros i o H; by rewrite lookup_nil in H.
  - simpl in Hall. apply andb_true_iff in Hall as [Ho Hall].
    apply negb_true_iff in Ho.
    destruct (step_without_writer o t r Hwr Ho) as (Hwr' & Hst' & Hres).
    change (run (o :: ops) (t, r)) with (run ops (step o (t, r)).2).
    change (results (o :: ops) (t, r))
      with ((step o (t, r)).1 :: results ops (step o (t, r)).2).
    destruct (step o (t, r)) as [res [t' r']]. simpl in Hwr', Hst', Hres.
    destruct (IH t' r' Hwr' Hall) as (IH1 & IH2 & IH3).
    split_and!.
    + exact IH1.
    + etrans; [exact IH2 | exact Hst'].
    + intros [|i] o' H; simpl in *.
      * injection H as <-. rewrite Hres. by destruct o.
      * by apply IH3.
Qed.

End NextJsSseTransport.

(** ** A concrete session

    Messages are strings and the runtime records what it was handed. *)
Definition recorder : @handler string (list string) :=
  λ m delivered, (Ok (), delivered ++ [m]).

(** The client that went away. *)
Definition aborted : thrown := Error "aborted".

Example session_events :
  streams (run id
    [OpInitResponseStream; OpStart; OpReader 0 Reads;
     OpSendEndpoint "/api/mcp?sessionId=s1"; OpSend "{}"; OpClose; OpSend "late"; OpClose]
    (new, @nil string)).1
  = [[Write ("event: endpoint" +:+ LF +:+ "data: /api/mcp?sessionId=s1" +:+ LF +:+ LF);
      Write ("event: message" +:+ LF +:+ "data: {}" +:+ LF +:+ LF);
      Close]].
Proof. reflexivity. Qed.

Example start_before_stream :
  start (@new string (list string)) = Throw NotInitialized.
Proof. reflexivity. Qed.

(** Nobody reads the new stream: the first write waits, and so does the
    [close] behind it, until the response is read. *)
Example unread_stream_waits :
  results id [OpInitResponseStream; OpSend "a"; OpClose; OpSend "b"; OpReader 0 Reads]
    (new, @nil string)
  = [Settled (Ok ()); Pending; Pending; Settled (Throw InvalidState); Settled (Ok ())] ∧
  _writer (run id [OpInitResponseStream; OpSend "a"; OpClose] (new, @nil string)).1
  = Some 0 ∧
  _writer (run id [OpInitResponseStream; OpSend "a"; OpClose; OpReader 0 Reads]
             (new, @nil string)).1
  = None.
Proof. split_and!; reflexivity. Qed.

Example inbound_before_handler_is_dropped :
  (run id
    [OpHandlePostMessage "m1"; OpSetOnmessage recorder; OpHandlePostMessage "m2"]
    (new, [])).2 = ["m2"].
Proof. reflexivity. Qed.

(** C6, where the claim fails: the client went away, which cancelled the
    stream, and [close] was called, which rejected.  The sink is gone, yet
    [send] still calls the writer: the promise rejects with the reason of
    the cancel, not with ChannelClosed. *)
Lemma send_after_reader_cancel :
  let t := (run id [OpInitResponseStream; OpReader 0 Reads; OpReader 0 (Cancels aborted);
                    OpClose] (new, @nil string)).1 in
  state <$> store t !! 0 = Some (Errored aborted) ∧
  (send id "m" t).1 = Settled (Throw aborted) ∧
  (send id "m" t).1 ≠ Settled (Throw ChannelClosed) ∧
  streams (send id "m" t).2 = [[Close; Write (message_event id "m")]].
Proof. split_and!; [reflexivity|reflexivity|discriminate|reflexivity]. Qed.


(** C8, where the claim fails: a transport that was never given a stream,
    and one that was closed, are not Ready, yet the message reaches the
    installed handler. *)
Lemma inbound_forwarded_when_not_ready :
  let early := run id [OpSetOnmessage recorder] (new, @nil string) in
  let late := run id [OpInitResponseStream; OpSetOnmessage recorder; OpClose]
                (new, @nil string) in
  _writer early.1 = None ∧ store early.1 = [] ∧
  (step id (OpHandlePostMessage "m") early).2.2 = ["m"] ∧
  _writer late.1 = None ∧ state <$> store late.1 !! 0 = Some Closed ∧
  (step id (OpHandlePostMessage "m") late).2.2 = ["m"].
Proof. split_and!; reflexivity. Qed.


Lemma events_in_call_order_witness :
  let t := (run id [OpInitResponseStream; OpSetOnmessage recorder] (new, @nil string)).1 in
  let ops := [OpSendEndpoint "/api/mcp?sessionId=s1"; OpReader 0 Reads; OpSend "a";
              OpStart; OpReader 0 (Cancels aborted); OpSend "b"] in
  _writer t = Some 0 ∧
  streams t !! 0 = Some [] ∧
  no_pending_close t = true ∧
  forallb keeps_writer ops = true ∧
  streams (run id ops (t, [])).1 !! 0
  = Some ([Write (endpoint_event "/api/mcp?sessionId=s1");
           Write (message_event id "a"); Write (message_event id "b")]).
Proof.
  intros t ops.
  split; [reflexivity|]. split; [reflexivity|]. split; [reflexivity|].
  split; [reflexivity|].
  exact (proj1 (proj2 (events_in_call_order id ops t [] 0 []
           eq_refl eq_refl eq_refl eq_refl))).
Defined.

Lemma no_writer_no_write_witness :
  let ops : list (@op string (list string)) :=
    [OpSend "a"; OpStart; OpClose; OpSendEndpoint "/e"] in
  _writer (@new string (list string)) = None ∧
  forallb (λ o, negb (acquires o)) ops = true ∧
  streams (run id ops (new, [])).1 = [].
Proof.
  intros ops. split; [reflexivity|]. split; [reflexivity|].
  exact (proj1 (proj2 (no_writer_no_write id ops new [] eq_refl eq_refl))).
Defined.

End Transport.

(* ===================================================================== *)
(** * Route: the session directory and the /api/mcp handlers             *)
(* ===================================================================== *)
Module Route.

(** [Map.prototype.set], [get] and [delete] on a [Map<string, V>]. *)
Definition Map_set {V} (k : string) (v : V) (m : gmap string V) : gmap string V :=
  <[k := v]> m.
Definition Map_get {V} (k : string) (m : gmap string V) : option V := m !! k.
Definition Map_delete {V} (k : string) (m : gmap string V) : gmap string V :=
  delete k m.

Inductive Body : Type :=
| Text (text : string)
| EventStream (transport : nat).

Record Response : Type := mkResponse { status : Z; body : Body }.

Section Route.

Context {Message R : Type}.

(** Collaborators: [authenticateApiKey] rejects an invalid credential and
    resolves to the user id otherwise; [createMcpServer user_id] stands for
    the inbound message handler that the server built for that user installs
    when it connects. *)
Variable authenticateApiKey : string → outcome string.
Variable createMcpServer : string → @Transport.handler Message R.
Variable BASE_URL : string.

Local Abbreviation transport_object := (@Transport.NextJsSseTransport Message R).
Local Abbreviation message_handler := (@Transport.handler Message R).

(** The process: transport objects live on a heap and the module-level
    [activeTransports] maps a session id to a reference, since the map and
    the request handlers share the object.  [timers] are the [setTimeout]
    callbacks not yet run. *)
Record World : Type := mkWorld {
  heap : list transport_object;
  activeTransports : gmap string nat;
  timers : list (nat * string);
  runtime : R;
}.

Definition empty_world (r : R) : World :=
  {| heap := []; activeTransports := ∅; timers := []; runtime := r |}.

(** [mcpServer.connect(transport)] of the SDK: installs the handlers, then
    awaits [transport.start()]. *)
Definition connect (h : message_handler) (t : transport_object)
  : outcome unit * transport_object :=
  let t' := Transport.set_onmessage h (Transport.set_onerror (Transport.set_onclose t)) in
  (Transport.start t', t').

(** The body shared by both GET handlers, from [new NextJsSseTransport()] to
    the [setTimeout]; [endpoint] is the address announced later. *)
Definition open_channel (user_id sessionId endpoint : string) (w : World)
  : outcome nat * World :=
  let transport := length (heap w) in
  let t := Transport.initResponseStream Transport.new in
  let directory := Map_set sessionId transport (activeTransports w) in
  let '(started, t') := connect (createMcpServer user_id) t in
  match started with
  | Throw e =>
      (Throw e, {| heap := heap w ++ [t']; activeTransports := directory;
                   timers := timers w; runtime := runtime w |})
  | Ok _ =>
      (Ok transport,
       {| heap := heap w ++ [t']; activeTransports := directory;
          timers := timers w ++ [(transport, endpoint)]; runtime := runtime w |})
  end.

(** GET of api/route.ts; [uuid] is what [crypto.randomUUID()] returns. *)
Definition GET (authorization : option string) (uuid : string) (w : World)
  : Response * World :=
  match authorization with
  | Some authHeader =>
      if truthy authorization then
        match authenticateApiKey authHeader with
        | Throw _ => (mkResponse 401 (Text "Unauthorized or Internal Error"), w)
        | Ok user_id =>
            match open_channel user_id uuid ("/api/mcp?sessionId=" +:+ uuid) w with
            | (Throw _, w') => (mkResponse 401 (Text "Unauthorized or Internal Error"), w')
            | (Ok stream, w') => (mkResponse 200 (EventStream stream), w')
            end
        end
      else (mkResponse 401 (Text "Unauthorized"), w)
  | None => (mkResponse 401 (Text "Unauthorized"), w)
  end.

(** app.get("/api/mcp") of the Cloud Run server. *)
Definition app_get (authorization : option string) (uuid : string) (w : World)
  : Response * World :=
  match authorization with
  | Some authHeader =>
      if truthy authorization then
        match authenticateApiKey authHeader with
        | Throw _ => (mkResponse 401 (Text "Unauthorized or Internal Error"), w)
        | Ok user_id =>
            match open_channel user_id uuid
                    (BASE_URL +:+ "/api/mcp?sessionId=" +:+ uuid) w with
            | (Throw _, w') => (mkResponse 401 (Text "Unauthorized or Internal Error"), w')
            | (Ok stream, w') => (mkResponse 200 (EventStream stream), w')
            end
        end
      else (mkResponse 401 (Text "Unauthorized"), w)
  | None => (mkResponse 401 (Text "Unauthorized"), w)
  end.

(** The listener registered by [req.on("close", ...)] for [sessionId]. *)
Definition on_close (sessionId : string) (w : World) : World :=
  {| heap := heap w; activeTransports := Map_delete sessionId (activeTransports w);
     timers := timers w; runtime := runtime w |}.

(** A stateless POST: the Authorization header, the [sessionId] query
    parameter and the body as [req.json()] reads it (it rejects on a body
    that is not JSON). *)
Record PostRequest : Type := mkPost {
  authorization : option string;
  sessionId : option string;
  json : outcome Message;
}.

(** Hand-off to the transport registered under [sid]; [notFound] is the
    text of the 404 answer, which differs between the two servers. *)
Definition deliver (notFound : string) (sid : string) (message : Message) (w : World)
  : outcome Response * World :=
  match Map_get sid (activeTransports w) with
  | None => (Ok (mkResponse 404 (Text notFound)), w)
  | Some transport =>
      match heap w !! transport with
      | None => (Throw (TypeError "Cannot read properties of undefined"), w)
      | Some t =>
          let '(res, r') := Transport.handlePostMessage message t (runtime w) in
          let w' := {| heap := heap w; activeTransports := activeTransports w;
                       timers := timers w; runtime := r' |} in
          match res with
          | Throw e => (Throw e, w')
          | Ok _ => (Ok (mkResponse 202 (Text "Accepted")), w')
          end
      end
  end.

(** The [try] block of POST in api/route.ts. *)
Definition POST_try (req : PostRequest) (w : World) : outcome Response * World :=
  match authorization req with
  | Some authHeader =>
      if truthy (authorization req) then
        match authenticateApiKey authHeader with
        | Throw e => (Throw e, w)
        | Ok _ =>
            match json req with
            | Throw e => (Throw e, w)
            | Ok message =>
                match sessionId req with
                | Some sid =>
                    if truthy (sessionId req) then
                      deliver "Session not found (Serverless limitation: ensure single instance)"
                        sid message w
                    else (Ok (mkResponse 400 (Text "Missing sessionId")), w)
                | None => (Ok (mkResponse 400 (Text "Missing sessionId")), w)
                end
            end
        end
      else (Ok (mkResponse 401 (Text "Unauthorized")), w)
  | None => (Ok (mkResponse 401 (Text "Unauthorized")), w)
  end.

(** POST of api/route.ts: whatever the [try] block throws is answered with
    500. *)
Definition POST (req : PostRequest) (w : World) : Response * World :=
  match POST_try req w with
  | (Ok response, w') => (response, w')
  | (Throw _, w') => (mkResponse 500 (Text "Internal Error"), w')
  end.

(** app.post("/api/mcp") of the Cloud Run server: the header check is
    outside the [try], the body was parsed by the express.json middleware
    and the session id is checked before the body is read. *)
Definition app_post (authorization : option string) (sessionId : option string)
    (message : Message) (w : World) : Response * World :=
  match authorization with
  | Some authHeader =>
      if truthy authorization then
        match authenticateApiKey authHeader with
        | Throw _ => (mkResponse 500 (Text "Internal Error"), w)
        | Ok _ =>
            match sessionId with
            | Some sid =>
                if truthy sessionId then
                  match deliver "Session not found" sid message w with
                  | (Ok response, w') => (response, w')
                  | (Throw _, w') => (mkResponse 500 (Text "Internal Error"), w')
                  end
                else (mkResponse 400 (Text "Missing sessionId"), w)
            | None => (mkResponse 400 (Text "Missing sessionId"), w)
            end
        end
      else (mkResponse 401 (Text "Unauthorized"), w)
  | None => (mkResponse 401 (Text "Unauthorized"), w)
  end.

(** ** The life of the process as a sequence of events *)
Inductive event : Type :=
| ChannelOpen (authorization : option string) (uuid : string)
| ChannelClose (sessionId : string)
| Post (authorization : option string) (sessionId : option string) (message : Message)
| TimerFires.

(** The [setTimeout] callback: [transport.sendEndpoint(endpoint)], a
    rejection being logged by the [catch]. *)
Definition run_timer (w : World) : World :=
  match timers w with
  | [] => w
  | (transport, endpoint) :: rest =>
      match heap w !! transport with
      | None => {| heap := heap w; activeTransports := activeTransports w;
                   timers := rest; runtime := runtime w |}
      | Some t =>
          {| heap := <[transport := (Transport.sendEndpoint endpoint t).2]> (heap w);
             activeTransports := activeTransports w;
             timers := rest; runtime := runtime w |}
      end
  end.

Definition handle (ev : event) (w : World) : World :=
  match ev with
  | ChannelOpen a uuid => (app_get a uuid w).2
  | ChannelClose sid => on_close sid w
  | Post a sid m => (app_post a sid m w).2
  | TimerFires => run_timer w
  end.

Definition serve (evs : list event) (w : World) : World := foldl (flip handle) w evs.



(** ** Facts about the handlers *)





Lemma run_timer_directory w : activeTransports (run_timer w) = activeTransports w.
Proof.
  unfold run_timer. destruct (timers w) as [|[tr endpoint] rest]; [done|].
  by destruct (heap w !! tr).
Qed.


(** The statuses of the POST handlers, case by case. *)
Lemma deliver_status notFound sid message w :
  match Map_get sid (activeTransports w) with
  | None => (deliver notFound sid message w).1 = Ok (mkResponse 404 (Text notFound))
  | Some tr =>
      ∀ t, heap w !! tr = Some t →
        match (Transport.handlePostMessage message t (runtime w)).1 with
        | Ok _ => (deliver notFound sid message w).1 = Ok (mkResponse 202 (Text "Accepted"))
        | Throw e => (deliver notFound sid message w).1 = Throw e
        end
  end.
Proof.
  unfold deliver. destruct (Map_get sid (activeTransports w)) as [tr|]; [|done].
  intros t ->.
  by destruct (Transport.handlePostMessage message t (runtime w)) as [[[]|e] r'].
Qed.

(** ** The claims about the session directory *)


(** C3, at the input where the code departs from the claim — a POST whose
    Authorization header is present but whose credential
    [authenticateApiKey] rejects is answered 500 "Internal Error" by both
    servers, not 401; nothing is delivered and the process state is
    unchanged. *)
Theorem POST_invalid_credential
    (req : PostRequest) (authHeader : string) (message : Message)
    (e : thrown) (w : World) :
  authorization req = Some authHeader →
  truthy (Some authHeader) = true →
  authenticateApiKey authHeader = Throw e →
  POST req w = (mkResponse 500 (Text "Internal Error"), w) ∧
  app_post (authorization req) (sessionId req) message w
  = (mkResponse 500 (Text "Internal Error"), w).
Proof.
  intros Ha Ht He. unfold POST, POST_try, app_post. by rewrite Ha, Ht, He.
Qed.


(** The answers of POST that do follow the interface: 401 without a
    credential, 400 without a session id, 404 for an unknown session id and
    202 after the hand-off. *)
Lemma POST_statuses (req : PostRequest) (w : World) :
  (truthy (authorization req) = false →
     POST req w = (mkResponse 401 (Text "Unauthorized"), w)) ∧
  (∀ authHeader user_id message,
     authorization req = Some authHeader → truthy (Some authHeader) = true →
     authenticateApiKey authHeader = Ok user_id → json req = Ok message →
     (truthy (sessionId req) = false →
        POST req w = (mkResponse 400 (Text "Missing sessionId"), w)) ∧
     (∀ sid, sessionId req = Some sid → truthy (Some sid) = true →
        (Map_get sid (activeTransports w) = None → status (POST req w).1 = 404%Z) ∧
        (∀ tr t, Map_get sid (activeTransports w) = Some tr → heap w !! tr = Some t →
           is_ok (Transport.handlePostMessage message t (runtime w)).1 = true →
           (POST req w).1 = mkResponse 202 (Text "Accepted")))).
Proof.
  split.
  - intros H. unfold POST, POST_try.
    destruct (authorization req) as [a|]; [|done]. by rewrite H.
  - intros authHeader user_id message Ha Ht Hauth Hjson. split.
    + intros H. unfold POST, POST_try. rewrite Ha, Ht, Hauth, Hjson.
      destruct (sessionId req) as [sid|]; [|done]. by rewrite H.
    + intros sid Hsid Hts. split.
      * intros Hnone. unfold POST, POST_try.
        rewrite Ha, Ht, Hauth, Hjson, Hsid, Hts. unfold deliver. by rewrite Hnone.
      * intros tr t Hsome Hheap Hok. unfold POST, POST_try.
        rewrite Ha, Ht, Hauth, Hjson, Hsid, Hts. unfold deliver.
        rewrite Hsome, Hheap.
        by destruct (Transport.handlePostMessage message t (runtime w)) as [[[]|e] r'].
Qed.

(** ** Invariants of the running process *)

(** The transport that a channel-open request builds for [user_id]. *)
Definition opened_transport (user_id : string) : transport_object :=
  Transport.set_onmessage (createMcpServer user_id)
    (Transport.initResponseStream Transport.new).

(** Every registered session designates a transport of the heap; every
    transport of the heap holds a writer and the message handler of
    the server it was connected to; every pending timer designates a
    transport of the heap. *)
Definition live (w : World) : Prop :=
  (∀ sid tr, activeTransports w !! sid = Some tr → tr < length (heap w)) ∧
  (∀ tr t, heap w !! tr = Some t →
     Transport.wf t ∧ is_Some (Transport._writer t) ∧
     ∃ user_id, Transport._messageHandler t = Some (createMcpServer user_id)) ∧
  (∀ tr endpoint, (tr, endpoint) ∈ timers w → tr < length (heap w)).

Lemma open_channel_ok user_id sid endpoint w :
  open_channel user_id sid endpoint w
  = (Ok (length (heap w)),
     {| heap := heap w ++ [opened_transport user_id];
        activeTransports := Map_set sid (length (heap w)) (activeTransports w);
        timers := timers w ++ [(length (heap w), endpoint)];
        runtime := runtime w |}).
Proof. reflexivity. Qed.

Lemma opened_transport_ready user_id :
  Transport.wf (opened_transport user_id) ∧
  Transport._writer (opened_transport user_id) = Some 0 ∧
  Transport.streams (opened_transport user_id) = [[]] ∧
  Transport._messageHandler (opened_transport user_id) = Some (createMcpServer user_id).
Proof.
  split; [|done].
  exact (Transport.wf_initResponseStream Transport.new).
Qed.

Lemma deliver_frame notFound sid message w :
  heap (deliver notFound sid message w).2 = heap w ∧
  activeTransports (deliver notFound sid message w).2 = activeTransports w ∧
  timers (deliver notFound sid message w).2 = timers w.
Proof.
  unfold deliver. destruct (Map_get sid (activeTransports w)) as [tr|]; [|done].
  destruct (heap w !! tr) as [t|]; [|done].
  destruct (Transport.handlePostMessage message t (runtime w)) as [[[]|e] r']; done.
Qed.

Lemma app_post_frame a sid message w :
  heap (app_post a sid message w).2 = heap w ∧
  activeTransports (app_post a sid message w).2 = activeTransports w ∧
  timers (app_post a sid message w).2 = timers w.
Proof.
  unfold app_post. destruct a as [authHeader|]; [|done].
  destruct (truthy (Some authHeader)); [|done].
  destruct (authenticateApiKey authHeader); [|done].
  destruct sid as [sid|]; [|done].
  destruct (truthy (Some sid)); [|done].
  pose proof (deliver_frame "Session not found" sid message w) as H.
  by destruct (deliver "Session not found" sid message w) as [[resp|e] w'].
Qed.

Lemma POST_frame req w :
  heap (POST req w).2 = heap w ∧
  activeTransports (POST req w).2 = activeTransports w ∧
  timers (POST req w).2 = timers w.
Proof.
  unfold POST, POST_try. destruct (authorization req) as [authHeader|]; [|done].
  destruct (truthy (Some authHeader)); [|done].
  destruct (authenticateApiKey authHeader); [|done].
  destruct (json req) as [message|]; [|done].
  destruct (sessionId req) as [sid|]; [|done].
  destruct (truthy (Some sid)); [|done].
  match goal with |- context [deliver ?nf sid message w] =>
    pose proof (deliver_frame nf sid message w) as H;
    by destruct (deliver nf sid message w) as [[resp|e] w']
  end.
Qed.

Lemma app_get_cases a uuid w :
  (∃ authHeader user_id,
     a = Some authHeader ∧ truthy a = true ∧
     authenticateApiKey authHeader = Ok user_id ∧
     app_get a uuid w
     = (mkResponse 200 (EventStream (length (heap w))),
        {| heap := heap w ++ [opened_transport user_id];
           activeTransports := Map_set uuid (length (heap w)) (activeTransports w);
           timers := timers w
                     ++ [(length (heap w), BASE_URL +:+ "/api/mcp?sessionId=" +:+ uuid)];
           runtime := runtime w |}))
  ∨ (status (app_get a uuid w).1 = 401%Z ∧ (app_get a uuid w).2 = w).
Proof.
  unfold app_get. destruct a as [authHeader|]; [|by right].
  destruct (truthy (Some authHeader)) eqn:Ht; [|by right].
  destruct (authenticateApiKey authHeader) as [user_id|e] eqn:Ha; [|by right].
  left. exists authHeader, user_id. by rewrite open_channel_ok.
Qed.

Lemma GET_cases a uuid w :
  (∃ authHeader user_id,
     a = Some authHeader ∧ truthy a = true ∧
     authenticateApiKey authHeader = Ok user_id ∧
     GET a uuid w
     = (mkResponse 200 (EventStream (length (heap w))),
        {| heap := heap w ++ [opened_transport user_id];
           activeTransports := Map_set uuid (length (heap w)) (activeTransports w);
           timers := timers w ++ [(length (heap w), "/api/mcp?sessionId=" +:+ uuid)];
           runtime := runtime w |}))
  ∨ (status (GET a uuid w).1 = 401%Z ∧ (GET a uuid w).2 = w).
Proof.
  unfold GET. destruct a as [authHeader|]; [|by right].
  destruct (truthy (Some authHeader)) eqn:Ht; [|by right].
  destruct (authenticateApiKey authHeader) as [user_id|e] eqn:Ha; [|by right].
  left. exists authHeader, user_id. by rewrite open_channel_ok.
Qed.

Lemma live_empty r : live (empty_world r).
Proof.
  unfold live, empty_world. simpl. split_and!.
  - intros sid tr H. by rewrite lookup_empty in H.
  - intros tr t H. by rewrite lookup_nil in H.
  - intros tr e H. by apply not_elem_of_nil in H.
Qed.

Lemma sendEndpoint_keeps endpoint (t : transport_object) :
  Transport._writer (Transport.sendEndpoint endpoint t).2 = Transport._writer t ∧
  Transport._messageHandler (Transport.sendEndpoint endpoint t).2
  = Transport._messageHandler t.
Proof.
  unfold Transport.sendEndpoint. destruct (Transport._writer t) as [wr|] eqn:E; [|done].
  unfold Transport.writer_invoke. destruct (Transport.store t !! wr) as [s|]; [|done].
  by destruct (Transport.writer_write (Transport.state s)).
Qed.

Lemma live_handle ev w : live w → live (handle ev w).
Proof.
  intros Hlive. pose proof Hlive as (Hd & Hh & Ht).
  destruct ev as [a uuid|sid|a sid m|]; simpl.
  - destruct (app_get_cases a uuid w) as [(ah & u & _ & _ & _ & ->)|[_ ->]];
      [|exact Hlive].
    unfold live. simpl. rewrite length_app. simpl. split_and!.
    + intros sid tr H. unfold Map_set in H.
      destruct (decide (uuid = sid)) as [->|Hne].
      * rewrite lookup_insert_eq in H. injection H as <-. lia.
      * rewrite lookup_insert_ne in H by done. apply Hd in H. lia.
    + intros tr t H. apply lookup_app_Some in H as [H|[_ H]]; [by eapply Hh|].
      destruct (tr - length (heap w)) as [|k]; simpl in H;
        [|by rewrite lookup_nil in H].
      injection H as <-. destruct (opened_transport_ready u) as (Hwf & Hwr & _ & Hm).
      split_and!; [done|by rewrite Hwr|by exists u].
    + intros tr e H. apply elem_of_app in H as [H|H].
      * apply Ht in H. lia.
      * apply list_elem_of_singleton in H. injection H as -> _. lia.
  - unfold live. simpl. split_and!; [|done|done].
    intros sid' tr H. unfold Map_delete in H.
    apply lookup_delete_Some in H as [_ H]. by eapply Hd.
  - destruct (app_post_frame a sid m w) as (H1 & H2 & H3).
    unfold live. rewrite H1, H2, H3. by split_and!.
  - unfold run_timer.
    destruct (timers w) as [|[tr endpoint] rest] eqn:E; [exact Hlive|].
    assert (Hrest : ∀ tr' e', (tr', e') ∈ rest → tr' < length (heap w)).
    { intros tr' e' H. eapply Ht. by right. }
    destruct (heap w !! tr) as [t|] eqn:Hlk; unfold live; simpl.
    + rewrite length_insert. split_and!; [done| |done].
      intros tr' t' H. destruct (decide (tr = tr')) as [<-|Hne].
      * rewrite list_lookup_insert_eq in H by (by eapply lookup_lt_Some).
        injection H as <-. destruct (Hh tr t Hlk) as (Hwf & Hwr & Hm).
        destruct (sendEndpoint_keeps endpoint t) as [-> ->].
        split_and!; [|done|done]. by apply Transport.wf_sendEndpoint.
      * rewrite list_lookup_insert_ne in H by done. by eapply Hh.
    + by split_and!.
Qed.

Lemma live_serve evs w : live w → live (serve evs w).
Proof.
  revert w. induction evs as [|ev evs IH]; intros w Hw; [done|].
  unfold serve. simpl. apply IH. by apply live_handle.
Qed.

(** The user for whom a channel-open request is served: the one that
    [authenticateApiKey] resolves to, when the header is there. *)
Definition accepted (authorization : option string) : option string :=
  match authorization with
  | Some authHeader =>
      if truthy authorization then
        match authenticateApiKey authHeader with
        | Ok user_id => Some user_id
        | Throw _ => None
        end
      else None
  | None => None
  end.

(** The user who opened the channel that [sid] designates after the events
    [evs]: the one served by the latest channel-open request that issued
    [sid], unless that channel was closed since. *)
Definition opener_after (sid : string) (owner : option string) (ev : event)
  : option string :=
  match ev with
  | ChannelOpen a uuid =>
      if String.eqb uuid sid then
        match accepted a with
        | Some user_id => Some user_id
        | None => owner
        end
      else owner
  | ChannelClose sid' => if String.eqb sid' sid then None else owner
  | _ => owner
  end.

Definition opener (sid : string) (evs : list event) : option string :=
  foldl (opener_after sid) None evs.

(** A session id resolves exactly when its channel has an opener, and then
    to a transport that holds the message handler of the opener's server. *)
Definition owned (owner : option string) (sid : string) (w : World) : Prop :=
  match owner with
  | Some user_id =>
      ∃ tr t, activeTransports w !! sid = Some tr ∧ heap w !! tr = Some t ∧
              Transport._messageHandler t = Some (createMcpServer user_id)
  | None => activeTransports w !! sid = None
  end.

Lemma app_get_accepted a uuid w :
  app_get a uuid w
  = match accepted a with
    | Some user_id =>
        (mkResponse 200 (EventStream (length (heap w))),
         {| heap := heap w ++ [opened_transport user_id];
            activeTransports := Map_set uuid (length (heap w)) (activeTransports w);
            timers := timers w
                      ++ [(length (heap w), BASE_URL +:+ "/api/mcp?sessionId=" +:+ uuid)];
            runtime := runtime w |})
    | None => ((app_get a uuid w).1, w)
    end.
Proof.
  unfold app_get, accepted. destruct a as [authHeader|]; [|done].
  destruct (truthy (Some authHeader)); [|done].
  destruct (authenticateApiKey authHeader) as [user_id|e]; [|done].
  by rewrite open_channel_ok.
Qed.

Lemma owned_handle owner sid ev w :
  live w → owned owner sid w → owned (opener_after sid owner ev) sid (handle ev w).
Proof.
  intros (Hd & _ & _) Hown.
  assert (Hkeep : ∀ w', activeTransports w' = activeTransports w →
            (∀ tr t, heap w !! tr = Some t →
               ∃ t', heap w' !! tr = Some t' ∧
                     Transport._messageHandler t' = Transport._messageHandler t) →
            owned owner sid w').
  { intros w' Hdir Hheap. destruct owner as [u|]; simpl in *; [|by rewrite Hdir].
    destruct Hown as (tr & t & Hsid & Hlk & Hm).
    destruct (Hheap tr t Hlk) as (t' & Hlk' & Hm').
    exists tr, t'. rewrite Hdir, Hm'. done. }
  destruct ev as [a uuid|sid'|a sid' m|]; simpl.
  - rewrite app_get_accepted. destruct (accepted a) as [u|] eqn:Ha; simpl.
    + destruct (String.eqb_spec uuid sid) as [->|Hne].
      * exists (length (heap w)), (opened_transport u). simpl. unfold Map_set.
        rewrite lookup_insert_eq, lookup_app_r, Nat.sub_diag by done. done.
      * destruct owner as [v|]; simpl in *.
        -- destruct Hown as (tr & t & Hsid & Hlk & Hm). exists tr, t.
           unfold Map_set. rewrite lookup_insert_ne by done.
           split_and!; [done| |done]. by apply lookup_app_l_Some.
        -- unfold Map_set. by rewrite lookup_insert_ne.
    + by destruct (String.eqb uuid sid).
  - destruct (String.eqb_spec sid' sid) as [->|Hne]; simpl.
    + unfold Map_delete. by rewrite lookup_delete_eq.
    + destruct owner as [v|]; simpl in *; unfold Map_delete;
        rewrite lookup_delete_ne by done; done.
  - destruct (app_post_frame a sid' m w) as (H1 & H2 & _).
    apply Hkeep; [done|]. intros tr t Hlk. exists t. by rewrite H1.
  - apply Hkeep; [by apply run_timer_directory|].
    intros tr t Hlk. unfold run_timer.
    destruct (timers w) as [|[tr0 endpoint] rest]; [by exists t|].
    destruct (heap w !! tr0) as [t0|] eqn:Hlk0; simpl; [|by exists t].
    destruct (decide (tr0 = tr)) as [->|Hne].
    + rewrite list_lookup_insert_eq by (by eapply lookup_lt_Some).
      eexists. split; [done|]. assert (t0 = t) as -> by congruence.
      by destruct (sendEndpoint_keeps endpoint t) as [_ ->].
    + rewrite list_lookup_insert_ne by done. by exists t.
Qed.

Lemma owned_serve sid evs r :
  owned (opener sid evs) sid (serve evs (empty_world r)).
Proof.
  induction evs as [|ev evs IH] using rev_ind.
  - simpl. by rewrite lookup_empty.
  - unfold opener, serve in *. rewrite !foldl_snoc. simpl.
    apply owned_handle; [|done].
    exact (live_serve evs (empty_world r) (live_empty r)).
Qed.

(** ** Further properties of the handlers *)

(** X3 — a registered session is always deliverable, to its opener's
    server.  In every state the Cloud Run process reaches, a session id that
    resolves has an opener, the user for whom the latest channel-open
    request that issued the id was served, and designates a transport that
    holds a writer and the message handler of the server built for that
    user.  A POST carrying any accepted credential, of whichever user, hands
    the message to that handler: the answer is 202, or 500 when the handler
    throws, never 404, and only the runtime state changes. *)
Theorem registered_session_delivers
    (evs : list event) (r : R) (sid authHeader user : string) (tr : nat)
    (message : Message) :
  let w := serve evs (empty_world r) in
  Map_get sid (activeTransports w) = Some tr →
  truthy (Some sid) = true →
  truthy (Some authHeader) = true →
  authenticateApiKey authHeader = Ok user →
  ∃ t owner,
    opener sid evs = Some owner ∧
    heap w !! tr = Some t ∧
    is_Some (Transport._writer t) ∧
    Transport._messageHandler t = Some (createMcpServer owner) ∧
    app_post (Some authHeader) (Some sid) message w
    = (match (createMcpServer owner message (runtime w)).1 with
       | Ok _ => mkResponse 202 (Text "Accepted")
       | Throw _ => mkResponse 500 (Text "Internal Error")
       end,
       {| heap := heap w; activeTransports := activeTransports w;
          timers := timers w;
          runtime := (createMcpServer owner message (runtime w)).2 |}).
Proof.
  intros w Hsid Hts Hta Hauth.
  pose proof (live_serve evs (empty_world r) (live_empty r)) as (_ & Hh & _).
  pose proof (owned_serve sid evs r) as Hown. fold w in Hh, Hown.
  unfold Map_get in Hsid.
  destruct (opener sid evs) as [owner|]; simpl in Hown; [|congruence].
  destruct Hown as (tr' & t & Hsid' & Hlk & Hm).
  assert (tr' = tr) as -> by congruence.
  destruct (Hh tr t Hlk) as (_ & Hwr & _).
  exists t, owner. split_and!; try done.
  unfold app_post. rewrite Hta, Hauth, Hts. unfold deliver, Map_get.
  rewrite Hsid, Hlk. unfold Transport.handlePostMessage. rewrite Hm.
  by destruct (createMcpServer owner message (runtime w)) as [[[]|e] r'].
Qed.

(** X4 — the first event of a channel is its endpoint.  When a channel is
    opened with an accepted credential and no timer is pending, the timer
    that the request leaves behind writes, as the first chunk of the new
    stream, the endpoint event whose data is the POST address with the new
    session id; the Cloud Run server announces an absolute address and
    api/route.ts a relative one. *)
Theorem channel_open_announces_endpoint
    (authHeader user uuid : string) (w : World) :
  truthy (Some authHeader) = true →
  authenticateApiKey authHeader = Ok user →
  timers w = [] →
  (Transport.streams <$> heap (run_timer (app_get (Some authHeader) uuid w).2)
                          !! length (heap w)
   = Some [[Transport.Write
              (Transport.endpoint_event (BASE_URL +:+ "/api/mcp?sessionId=" +:+ uuid))]]) ∧
  (Transport.streams <$> heap (run_timer (GET (Some authHeader) uuid w).2)
                          !! length (heap w)
   = Some [[Transport.Write
              (Transport.endpoint_event ("/api/mcp?sessionId=" +:+ uuid))]]) ∧
  timers (run_timer (app_get (Some authHeader) uuid w).2) = [].
Proof.
  intros Ht Ha Hno. unfold app_get, GET. rewrite Ht, Ha, !open_channel_ok. simpl.
  unfold run_timer. simpl. rewrite Hno. simpl.
  rewrite !lookup_app_r, !Nat.sub_diag by done. simpl.
  rewrite !list_lookup_insert_eq by (rewrite length_app; simpl; lia).
  done.
Qed.

(** X5 — an unknown session id is refused without any effect.  A POST with
    an accepted credential and a session id that does not resolve is
    answered 404 by both servers and leaves the whole process state as it
    was: nothing is written to any channel and no handler runs. *)
Theorem unknown_session_is_refused
    (authHeader user sid : string) (message : Message) (w : World) :
  truthy (Some authHeader) = true →
  authenticateApiKey authHeader = Ok user →
  truthy (Some sid) = true →
  Map_get sid (activeTransports w) = None →
  app_post (Some authHeader) (Some sid) message w
  = (mkResponse 404 (Text "Session not found"), w) ∧
  POST (mkPost (Some authHeader) (Some sid) (Ok message)) w
  = (mkResponse 404
       (Text "Session not found (Serverless limitation: ensure single instance)"), w).
Proof.
  intros Ht Ha Hts Hnone. unfold POST, POST_try, app_post.
  cbn [authorization sessionId json].
  rewrite Ht, Ha, Hts. unfold deliver. by rewrite Hnone.
Qed.

(** X6 — a channel is opened exactly when the credential is accepted.
    When the Authorization header is there and [authenticateApiKey]
    resolves, both GET handlers answer 200 with the stream of a new
    transport, built for the authenticated user and registered under the
    fresh session id, and leave a timer for the endpoint event (the connect
    step cannot fail, the stream being created first).  Without the header
    they answer 401 "Unauthorized", and when [authenticateApiKey] rejects
    401 "Unauthorized or Internal Error"; in both cases the process state
    is untouched. *)
Theorem channel_open_outcomes (a : option string) (uuid : string) (w : World) :
  (∀ authHeader user_id,
     a = Some authHeader → truthy a = true →
     authenticateApiKey authHeader = Ok user_id →
     app_get a uuid w
     = (mkResponse 200 (EventStream (length (heap w))),
        {| heap := heap w ++ [opened_transport user_id];
           activeTransports := Map_set uuid (length (heap w)) (activeTransports w);
           timers := timers w
                     ++ [(length (heap w), BASE_URL +:+ "/api/mcp?sessionId=" +:+ uuid)];
           runtime := runtime w |}) ∧
     GET a uuid w
     = (mkResponse 200 (EventStream (length (heap w))),
        {| heap := heap w ++ [opened_transport user_id];
           activeTransports := Map_set uuid (length (heap w)) (activeTransports w);
           timers := timers w ++ [(length (heap w), "/api/mcp?sessionId=" +:+ uuid)];
           runtime := runtime w |})) ∧
  (truthy a = false →
     app_get a uuid w = (mkResponse 401 (Text "Unauthorized"), w) ∧
     GET a uuid w = (mkResponse 401 (Text "Unauthorized"), w)) ∧
  (∀ authHeader e,
     a = Some authHeader → truthy a = true →
     authenticateApiKey authHeader = Throw e →
     app_get a uuid w = (mkResponse 401 (Text "Unauthorized or Internal Error"), w) ∧
     GET a uuid w = (mkResponse 401 (Text "Unauthorized or Internal Error"), w)).
Proof.
  split_and!.
  - intros authHeader user_id -> Ht Ha. unfold app_get, GET.
    by rewrite Ht, Ha, !open_channel_ok.
  - intros Ht. unfold app_get, GET. destruct a as [authHeader|]; [|done].
    by rewrite Ht.
  - intros authHeader e -> Ht Ha. unfold app_get, GET. by rewrite Ht, Ha.
Qed.

(** X7 — api/route.ts never removes a session.  Its POST handler changes
    neither the directory nor the transports, and its GET handler changes
    the directory at most by binding its own fresh session id: every other
    session id resolves after the request as it did before. *)
Theorem route_never_unregisters (w : World) (sid : string) :
  (∀ req, activeTransports (POST req w).2 = activeTransports w ∧
          heap (POST req w).2 = heap w) ∧
  (∀ a uuid, uuid ≠ sid →
     Map_get sid (activeTransports (GET a uuid w).2) = Map_get sid (activeTransports w)).
Proof.
  split.
  - intros req. by destruct (POST_frame req w) as (-> & -> & _).
  - intros a uuid Hne.
    destruct (GET_cases a uuid w) as [(ah & u & _ & _ & _ & ->)|[_ ->]]; [|done].
    simpl. unfold Map_get, Map_set. by rewrite lookup_insert_ne.
Qed.

End Route.

(** ** A concrete deployment: one valid key, string messages *)
Definition demo_authenticate (authHeader : string) : outcome string :=
  if String.eqb authHeader "Bearer good-key" then Ok "user-1"
  else Throw (Error "Invalid API key").

Definition demo_server (user_id : string) : @Transport.handler string (list string) :=
  λ m delivered, (Ok (), delivered ++ [user_id +:+ ":" +:+ m]).

Definition demo_events : list (@event string) :=
  [ChannelOpen (Some "Bearer good-key") "s1";
   TimerFires;
   Post (Some "Bearer good-key") (Some "s1") "ping";
   ChannelClose "s1";
   Post (Some "Bearer good-key") (Some "s1") "late"].

Example demo_delivery :
  runtime (serve demo_authenticate demo_server "http://localhost:8080"
             demo_events (empty_world [])) = ["user-1:ping"].
Proof. reflexivity. Qed.

Example demo_endpoint_event :
  Transport.streams <$>
    heap (serve demo_authenticate demo_server "http://localhost:8080"
            demo_events (empty_world [])) !! 0
  = Some [[Transport.Write
             ("event: endpoint" +:+ LF +:+
              "data: http://localhost:8080/api/mcp?sessionId=s1" +:+ LF +:+ LF)]].
Proof. reflexivity. Qed.

Example demo_unknown_session :
  (app_post demo_authenticate (Some "Bearer good-key") (Some "nope") "ping"
     (empty_world ([] : list string))).1
  = mkResponse 404 (Text "Session not found").
Proof. reflexivity. Qed.

Lemma POST_invalid_credential_witness :
  let req := @mkPost string (Some "Bearer wrong-key") (Some "s1") (Ok "{}") in
  let w := @empty_world string (list string) [] in
  authorization req = Some "Bearer wrong-key" ∧
  truthy (Some "Bearer wrong-key") = true ∧
  demo_authenticate "Bearer wrong-key" = Throw (Error "Invalid API key") ∧
  POST demo_authenticate req w = (mkResponse 500 (Text "Internal Error"), w) ∧
  app_post demo_authenticate (authorization req) (sessionId req) "{}" w
  = (mkResponse 500 (Text "Internal Error"), w).
Proof.
  intros req w.
  split; [reflexivity|]. split; [reflexivity|]. split; [reflexivity|].
  apply (POST_invalid_credential demo_authenticate req "Bearer wrong-key" "{}"
           (Error "Invalid API key") w); reflexivity.
Defined.

(** Two users, each with a key of their own. *)
Definition two_keys (authHeader : string) : outcome string :=
  if String.eqb authHeader "Bearer key-1" then Ok "user-1"
  else if String.eqb authHeader "Bearer key-2" then Ok "user-2"
  else Throw (Error "Invalid API key").

Lemma registered_session_delivers_witness :
  let evs := [ChannelOpen (Some "Bearer key-1") "s1"; TimerFires;
              ChannelOpen (Some "Bearer key-2") "s2"] in
  let w := serve two_keys demo_server "http://localhost:8080" evs
             (empty_world ([] : list string)) in
  Map_get "s1" (activeTransports w) = Some 0 ∧
  truthy (Some "s1") = true ∧
  truthy (Some "Bearer key-2") = true ∧
  two_keys "Bearer key-2" = Ok "user-2" ∧
  opener two_keys "s1" evs = Some "user-1" ∧
  app_post two_keys (Some "Bearer key-2") (Some "s1") "ping" w
  = (mkResponse 202 (Text "Accepted"),
     {| heap := heap w; activeTransports := activeTransports w; timers := timers w;
        runtime := ["user-1:ping"] |}).
Proof.
  intros evs w.
  split; [reflexivity|]. split; [reflexivity|]. split; [reflexivity|].
  split; [reflexivity|].
  destruct (registered_session_delivers two_keys demo_server
              "http://localhost:8080" evs []
              "s1" "Bearer key-2" "user-2" 0 "ping"
              eq_refl eq_refl eq_refl eq_refl) as (t & owner & Hown & _ & _ & _ & Heq).
  fold w in Heq. split; [reflexivity|].
  assert (owner = "user-1") as -> by (vm_compute in Hown; congruence).
  exact Heq.
Defined.

Lemma channel_open_announces_endpoint_witness :
  let w := @empty_world string (list string) [] in
  truthy (Some "Bearer good-key") = true ∧
  demo_authenticate "Bearer good-key" = Ok "user-1" ∧
  timers w = [] ∧
  Transport.streams <$>
    heap (run_timer (app_get demo_authenticate demo_server "http://localhost:8080"
                       (Some "Bearer good-key") "s1" w).2) !! 0
  = Some [[Transport.Write
             (Transport.endpoint_event "http://localhost:8080/api/mcp?sessionId=s1")]].
Proof.
  intros w.
  split; [reflexivity|]. split; [reflexivity|]. split; [reflexivity|].
  exact (proj1 (channel_open_announces_endpoint demo_authenticate demo_server
                  "http://localhost:8080" "Bearer good-key" "user-1" "s1" w
                  eq_refl eq_refl eq_refl)).
Defined.

Lemma unknown_session_is_refused_witness :
  let w := @empty_world string (list string) [] in
  truthy (Some "Bearer good-key") = true ∧
  demo_authenticate "Bearer good-key" = Ok "user-1" ∧
  truthy (Some "never-issued") = true ∧
  Map_get "never-issued" (activeTransports w) = None ∧
  app_post demo_authenticate (Some "Bearer good-key") (Some "never-issued") "ping" w
  = (mkResponse 404 (Text "Session not found"), w).
Proof.
  intros w.
  split; [reflexivity|]. split; [reflexivity|]. split; [reflexivity|].
  split; [reflexivity|].
  exact (proj1 (unknown_session_is_refused demo_authenticate
                  "Bearer good-key" "user-1" "never-issued" "ping" w
                  eq_refl eq_refl eq_refl eq_refl)).
Defined.

End Route.

(* ===================================================================== *)
(** * Mcp: tool registry and the tools/call dispatch boundary (mcp.ts)   *)
(* ===================================================================== *)
Module Mcp.

Definition DQUOTE : string := String (ascii_of_nat 34) EmptyString.
Definition BACKSLASH : string := String (ascii_of_nat 92) EmptyString.

(** ** JavaScript values

    What [unknown] ranges over in this module: the values that JSON.parse
    produces, and [undefined].  An object is the list of its own properties
    in insertion order.  Numbers are kept abstract. *)
Section Values.

Context {number : Type}.

Inductive value : Type :=
| JUndefined
| JNull
| JBool (b : bool)
| JNumber (n : number)
| JString (s : string)
| JArray (items : list value)
| JObject (members : list (string * value)).

Abbreviation object := (list (string * value)).

(** [o[k]] on own data properties. *)
Fixpoint own (k : string) (o : object) : value :=
  match o with
  | [] => JUndefined
  | (k', v) :: o' => if String.eqb k k' then v else own k o'
  end.

(** [v.k] for a property name [k] that no prototype defines. *)
Definition prop (k : string) (v : value) : value :=
  match v with
  | JObject o => own k o
  | _ => JUndefined
  end.

(** [a ?? b] *)
Definition nullish (a b : value) : value :=
  match a with
  | JUndefined | JNull => b
  | _ => a
  end.

Definition is_string (v : value) : bool :=
  match v with JString _ => true | _ => false end.
Definition is_number (v : value) : bool :=
  match v with JNumber _ => true | _ => false end.
(** [typeof v === 'object'] *)
Definition is_object (v : value) : bool :=
  match v with JNull | JArray _ | JObject _ => true | _ => false end.

(** ** JSON.stringify(value, null, 2) *)

Definition hex_digit (n : nat) : string :=
  String (nth n (String.list_ascii_of_string "0123456789abcdef") "0"%char) EmptyString.

Definition escape_char (c : ascii) : string :=
  let n := nat_of_ascii c in
  if Nat.eqb n 34 then BACKSLASH +:+ DQUOTE
  else if Nat.eqb n 92 then BACKSLASH +:+ BACKSLASH
  else if Nat.eqb n 8 then BACKSLASH +:+ "b"
  else if Nat.eqb n 12 then BACKSLASH +:+ "f"
  else if Nat.eqb n 10 then BACKSLASH +:+ "n"
  else if Nat.eqb n 13 then BACKSLASH +:+ "r"
  else if Nat.eqb n 9 then BACKSLASH +:+ "t"
  else if Nat.ltb n 32 then BACKSLASH +:+ "u00" +:+ hex_digit (n / 16) +:+ hex_digit (n mod 16)
  else String c EmptyString.

Fixpoint escape (s : string) : string :=
  match s with
  | EmptyString => EmptyString
  | String c s' => escape_char c +:+ escape s'
  end.

Definition quote (s : string) : string := DQUOTE +:+ escape s +:+ DQUOTE.

Variable Number_toJSON : number → string.

(** [None] is [undefined]: what JSON.stringify returns for [undefined]
    itself; an [undefined] member of an object is left out and an
    [undefined] element of an array is written null. *)
Fixpoint stringify (indent : string) (v : value) : option string :=
  match v with
  | JUndefined => None
  | JNull => Some "null"
  | JBool true => Some "true"
  | JBool false => Some "false"
  | JNumber n => Some (Number_toJSON n)
  | JString s => Some (quote s)
  | JArray items =>
      let inner := indent +:+ "  " in
      match items with
      | [] => Some "[]"
      | _ =>
          let elements :=
            List.map (λ x, inner +:+ default "null" (stringify inner x)) items in
          Some ("[" +:+ LF +:+ join ("," +:+ LF) elements +:+ LF +:+ indent +:+ "]")
      end
  | JObject members =>
      let inner := indent +:+ "  " in
      let fix entries (ms : list (string * value)) : list string :=
        match ms with
        | [] => []
        | (k, x) :: ms' =>
            match stringify inner x with
            | Some text => (inner +:+ quote k +:+ ": " +:+ text) :: entries ms'
            | None => entries ms'
            end
        end in
      match entries members with
      | [] => Some "{}"
      | es => Some ("{" +:+ LF +:+ join ("," +:+ LF) es +:+ LF +:+ indent +:+ "}")
      end
  end.

Definition jsonText (v : value) : option string := stringify "" v.

End Values.
Arguments value : clear implicits.


(** ** Tool descriptors

    The [inputSchema] objects of the registry, as data.  The per-property
    [description] strings are left out. *)
Inductive Schema : Type :=
| SString (enum : option (list string))
| SNumber
| SBoolean
| SArray (items : Schema)
| SObject (properties : list (string * Schema)) (required : list string)
          (additionalProperties : bool).

Record ToolSchema : Type := mkToolSchema {
  name : string;
  description : string;
  inputSchema : Schema;
}.

Definition has_key {V} (k : string) (o : list (string * V)) : bool :=
  existsb (λ kv, String.eqb k kv.1) o.

(** What it means for a value to satisfy a schema (JSON Schema reading of
    [type], [enum], [items], [properties], [required] and
    [additionalProperties]).  No function of mcp.ts computes this. *)
Fixpoint conforms {number} (sch : Schema) (v : value number) : bool :=
  match sch, v with
  | SString None, JString _ => true
  | SString (Some allowed), JString s => existsb (String.eqb s) allowed
  | SNumber, JNumber _ => true
  | SBoolean, JBool _ => true
  | SArray items, JArray l => forallb (conforms items) l
  | SObject properties required additional, JObject o =>
      forallb (λ k, has_key k o) required
      && (additional || forallb (λ kv, has_key kv.1 properties) o)
      && (fix each (ps : list (string * Schema)) : bool :=
            match ps with
            | [] => true
            | (k, sch') :: ps' =>
                (if has_key k o then conforms sch' (own k o) else true) && each ps'
            end) properties
  | _, _ => false
  end.

Inductive Method : Type := GET | POST.

Section Dispatch.

Context {number : Type}.

Local Abbreviation value := (value number).
Local Abbreviation object := (list (string * value)).

(** Built-ins and collaborators.  [lit] gives the numeric literals of the
    source; [ToString] is [String(v)]; [JSON_parse] returns [None] where
    JSON.parse throws; [requestJson] is the downstream call of
    ./http-client.js, which resolves to the parsed body or rejects;
    [history_rejects_first] settles which rejection [Promise.all] reports
    when both requests of get_stats fail. *)
Variable lit : Z → number.
Variable Number_toJSON : number → string.
Variable ToString : value → string.
Variable encodeURIComponent : string → string.
Variable trim : string → string.
Variable JSON_parse : string → option value.

Record Request : Type := mkRequest {
  baseUrl : string;
  path : string;
  method : Method;
  headers : list (string * string);
  body : option value;
  query : option object;
  timeoutMs : number;
}.

Variable requestJson : Request → outcome value.
Variable history_rejects_first : bool.

Record McpConfig : Type := mkConfig {
  config_baseUrl : string;
  config_apiKey : string;
  config_timeoutMs : number;
  config_debug : bool;
}.

(** An asynchronous computation: it resolves or rejects, and adds the
    downstream requests it issued to the log. *)
Definition Io (A : Type) : Type := list Request → outcome A * list Request.

#[local] Instance Io_ret : MRet Io := λ A a log, (Ok a, log).
#[local] Instance Io_bind : MBind Io := λ A B k m log,
  match m log with
  | (Ok a, log') => k a log'
  | (Throw e, log') => (Throw e, log')
  end.

Definition throw {A} (e : thrown) : Io A := λ log, (Throw e, log).

Definition await_requestJson (r : Request) : Io value :=
  λ log, (requestJson r, log ++ [r]).

Definition authHeaders (apiKey : string) : list (string * string) :=
  [("Accept", "application/json");
   ("Content-Type", "application/json");
   ("Authorization", "Bearer " +:+ apiKey)].

Definition request_of (config : McpConfig) (path : string) (method : Method)
    (args : option object) (query : option object) : Request :=
  {| baseUrl := config_baseUrl config;
     path := path;
     method := method;
     headers := authHeaders (config_apiKey config);
     body := match method with POST => Some (JObject (default [] args)) | GET => None end;
     query := match method with GET => query | POST => None end;
     timeoutMs := config_timeoutMs config |}.

Definition callYtsmV2 (config : McpConfig) (path : string) (method : Method)
    (args : option object) (query : option object) : Io value :=
  await_requestJson (request_of config path method args query).

(** [Promise.all] of two requests: both are issued; it resolves to both
    results or rejects with the rejection that comes first. *)
Definition Promise_all2 (r1 r2 : Request) : Io (value * value) :=
  λ log,
    (match requestJson r1, requestJson r2 with
     | Ok v1, Ok v2 => Ok (v1, v2)
     | Throw e1, Ok _ => Throw e1
     | Ok _, Throw e2 => Throw e2
     | Throw e1, Throw e2 => Throw (if history_rejects_first then e2 else e1)
     end, log ++ [r1; r2]).

Record Tool : Type := mkTool {
  schema : ToolSchema;
  handler : object → McpConfig → Io value;
}.

(** [typeof v === 'string' ? v : undefined] *)
Definition string_or_undefined (v : value) : value :=
  if is_string v then v else JUndefined.

Definition transcribe_v2 : Tool :=
  {| schema :=
       {| name := "transcribe_v2";
          description := "POST /api/v2/transcribe. Fast caption-based transcript (no ASR). Use manual or auto captions only.";
          inputSchema :=
            SObject
              [("video", SString None);
               ("language", SString None);
               ("source", SString (Some ["auto"; "manual"]));
               ("format",
                SObject [("timestamp", SBoolean); ("paragraphs", SBoolean); ("words", SBoolean)]
                        [] false)]
              ["video"] false |};
     handler := λ args config,
       callYtsmV2 config "/api/v2/transcribe" POST (Some args) None |}.

Definition list_transcripts : Tool :=
  {| schema :=
       {| name := "list_transcripts";
          description := "GET /api/v1/history. List or search user transcripts. Use search to find by video id, title, or transcript content.";
          inputSchema :=
            SObject
              [("search", SString None);
               ("limit", SNumber);
               ("page", SNumber);
               ("status", SString (Some ["all"; "queued"; "processing"; "succeeded"; "failed"]));
               ("language", SString None);
               ("include_segments", SBoolean)]
              [] false |};
     handler := λ args config,
       callYtsmV2 config "/api/v1/history" GET None
         (Some
            [("limit", if is_number (own "limit" args) then own "limit" args
                       else JNumber (lit 10));
             ("page", if is_number (own "page" args) then own "page" args
                      else JNumber (lit 1));
             ("search", string_or_undefined (own "search" args));
             ("status", string_or_undefined (own "status" args));
             ("language", string_or_undefined (own "language" args));
             ("include_segments",
              match own "include_segments" args with
              | JBool true => JString "true"
              | _ => JUndefined
              end)]) |}.

Definition get_transcript : Tool :=
  {| schema :=
       {| name := "get_transcript";
          description := "GET /api/v1/transcripts/{video_id}. Get full transcript for a video.";
          inputSchema :=
            SObject
              [("video_id", SString None);
               ("id", SString None);
               ("language", SString None);
               ("source", SString (Some ["auto"; "manual"; "asr"]));
               ("include_timestamps", SBoolean)]
              ["video_id"] false |};
     handler := λ args config,
       let videoId := ToString (nullish (own "video_id" args) (JString "")) in
       callYtsmV2 config ("/api/v1/transcripts/" +:+ encodeURIComponent videoId) GET None
         (Some
            [("id", string_or_undefined (own "id" args));
             ("language", string_or_undefined (own "language" args));
             ("source", string_or_undefined (own "source" args));
             ("include_timestamps",
              match own "include_timestamps" args with
              | JBool false => JString "false"
              | _ => JUndefined
              end)]) |}.

(** [x && typeof x === 'object' ? x : {}] *)
Definition object_or_empty (x : value) : value :=
  match x with
  | JObject _ | JArray _ => x
  | _ => JObject []
  end.

Definition get_stats : Tool :=
  {| schema :=
       {| name := "get_stats";
          description := "Get stats: credits left, transcripts created, plan, rate limit.";
          inputSchema := SObject [] [] false |};
     handler := λ _args config,
       '(creditsRes, historyRes) ←
         Promise_all2
           (request_of config "/api/v1/credits" GET None None)
           (request_of config "/api/v1/history" GET None
              (Some [("limit", JNumber (lit 1)); ("page", JNumber (lit 1))]));
       let credits := object_or_empty creditsRes in
       let history := object_or_empty historyRes in
       let pagination := prop "pagination" history in
       mret (JObject
         [("credits", nullish (prop "credits" credits) (JNumber (lit 0)));
          ("transcripts_total", nullish (prop "total" pagination) (JNumber (lit 0)));
          ("plan", nullish (prop "plan" credits) (JString "free"));
          ("rate_limit", nullish (prop "rate_limit" credits) (JNumber (lit 100)))]) |}.

Definition delete_transcript : Tool :=
  {| schema :=
       {| name := "delete_transcript";
          description := "POST /api/v1/transcripts/bulk-delete. Delete transcripts by ids or by video_id.";
          inputSchema :=
            SObject [("ids", SArray (SString None)); ("video_id", SString None)] [] false |};
     handler := λ args config,
       let ids0 :=
         match own "ids" args with
         | JArray items => List.filter is_string items
         | _ => []
         end in
       let videoId :=
         match own "video_id" args with
         | JString s => trim s
         | _ => ""
         end in
       ids ←
         (if Nat.eqb (length ids0) 0 && truthy (Some videoId) then
            transcript ←
              callYtsmV2 config ("/api/v1/transcripts/" +:+ encodeURIComponent videoId)
                GET None None;
            let transcriptId :=
              match prop "id" transcript with
              | JString id => id
              | _ => ""
              end in
            mret (if truthy (Some transcriptId) then [JString transcriptId] else ids0)
          else mret ids0);
       if Nat.eqb (length ids) 0 then
         throw (Error "Provide `ids` or `video_id` to delete transcripts.")
       else
         callYtsmV2 config "/api/v1/transcripts/bulk-delete" POST
           (Some [("ids", JArray ids)]) None |}.

(** The object literal [toolRegistry], own properties in source order. *)
Definition toolRegistry : list (string * Tool) :=
  [("transcribe_v2", transcribe_v2);
   ("list_transcripts", list_transcripts);
   ("get_transcript", get_transcript);
   ("get_stats", get_stats);
   ("delete_transcript", delete_transcript)].

(** [toolRegistry] is created by an object literal, so a property read
    that finds no own property continues in Object.prototype.  These are its
    properties; each holds a function (or, for __proto__, the prototype
    object itself): a truthy value without a [handler] property. *)
Definition Object_prototype : list string :=
  ["constructor"; "__defineGetter__"; "__defineSetter__"; "hasOwnProperty";
   "__lookupGetter__"; "__lookupSetter__"; "isPrototypeOf";
   "propertyIsEnumerable"; "toString"; "valueOf"; "__proto__"; "toLocaleString"].

Inductive property : Type :=
| OwnTool (tool : Tool)
| Inherited.

Fixpoint own_tool (name : string) (registry : list (string * Tool)) : option Tool :=
  match registry with
  | [] => None
  | (k, tool) :: registry' => if String.eqb name k then Some tool else own_tool name registry'
  end.

(** [toolRegistry[name]]; [None] is [undefined]. *)
Definition registry_get (name : string) : option property :=
  match own_tool name toolRegistry with
  | Some tool => Some (OwnTool tool)
  | None => if existsb (String.eqb name) Object_prototype then Some Inherited else None
  end.

Definition listTools : list ToolSchema := List.map (λ t, schema t.2) toolRegistry.

Definition callTool (name : string) (args : option object) (config : McpConfig)
  : Io value :=
  match registry_get name with
  | None => throw (Error ("Unknown tool: " +:+ name))
  | Some (OwnTool tool) => handler tool (default [] args) config
  | Some Inherited => throw (TypeError "tool.handler is not a function")
  end.

(** ** The dispatch boundary *)

Record ErrText : Type := mkErrText { message : string; details : value }.

Definition errText (error : thrown) : ErrText :=
  match error with
  | HttpError message _ bodyText =>
      mkErrText message
        (match bodyText with
         | Some text =>
             if truthy bodyText then
               match JSON_parse text with
               | Some parsed => parsed
               | None => JString text
               end
             else JUndefined
         | None => JUndefined
         end)
  | Error message => mkErrText message JUndefined
  | TypeError message => mkErrText message JUndefined
  | Thrown rendering => mkErrText rendering JUndefined
  end.

(** The result envelope.  [text] is [None] when the expression that
    computes it evaluates to [undefined]; [isError] is [None] when the
    property is absent. *)
Record ContentBlock : Type := mkBlock { type : string; text : option string }.
Record CallToolResult : Type := mkResult {
  content : list ContentBlock;
  isError : option bool;
}.

Record CallToolRequest : Type := mkCall {
  params_name : string;
  params_arguments : option object;
}.

(** The handler that createMcpServer registers for tools/call.  The
    [console.error] calls made when [config.debug] is set are not
    modelled. *)
Definition CallToolRequest_handler (config : McpConfig) (req : CallToolRequest)
  : list Request → CallToolResult * list Request :=
  λ log,
    match callTool (params_name req) (Some (default [] (params_arguments req))) config log with
    | (Ok result, log') =>
        let text :=
          match result with
          | JString s => Some s
          | _ => jsonText Number_toJSON result
          end in
        ({| content := [mkBlock "text" text]; isError := None |}, log')
    | (Throw error, log') =>
        let e := errText error in
        ({| content :=
              [mkBlock "text"
                 (jsonText Number_toJSON
                    (JObject [("error", JString (message e)); ("details", details e)]))];
            isError := Some true |}, log')
    end.

(** The handler registered for tools/list. *)
Definition ListToolsRequest_handler : list ToolSchema := listTools.


(** ** Facts about the registry and the boundary *)

(** [needle] occurs in [text]. *)
Definition occurs_in (needle text : string) : Prop :=
  ∃ before after, text = before +:+ needle +:+ after.

(** The claim C1, read at one call: the call is refused before any handler
    ran, so it rejects and no downstream request was issued. *)
Definition refused_before_handler (r : outcome value * list Request) : Prop :=
  (∃ e, r.1 = Throw e) ∧ r.2 = [].

Lemma own_tool_registered name tool :
  In (name, tool) toolRegistry → own_tool name toolRegistry = Some tool.
Proof.
  unfold toolRegistry. simpl.
  intros [H|[H|[H|[H|[H|[]]]]]]; injection H as <- <-; reflexivity.
Qed.

Lemma error_text (m : string) (d : value) :
  jsonText Number_toJSON (JObject [("error", JString m); ("details", d)])
  = Some ("{" +:+ LF +:+ "  " +:+ quote "error" +:+ ": " +:+ quote m +:+
          match stringify Number_toJSON "  " d with
          | Some t => "," +:+ LF +:+ "  " +:+ quote "details" +:+ ": " +:+ t
          | None => ""
          end +:+ LF +:+ "}").
Proof.
  unfold jsonText. cbn [stringify]. change ("" +:+ "  ") with "  ".
  destruct (stringify Number_toJSON "  " d) as [t|]; cbn [join];
    rewrite ?string_app_assoc; reflexivity.
Qed.

(** The text of an error envelope shows the message, JSON-escaped. *)
Lemma error_text_shows_message (m : string) (d : value) :
  ∃ text, jsonText Number_toJSON (JObject [("error", JString m); ("details", d)]) = Some text
          ∧ occurs_in (escape m) text.
Proof.
  rewrite error_text. eexists. split; [reflexivity|].
  exists ("{" +:+ LF +:+ "  " +:+ quote "error" +:+ ": " +:+ DQUOTE). eexists.
  unfold quote at 2. rewrite !string_app_assoc. reflexivity.
Qed.

(** A name that is neither a tool nor a property of Object.prototype is
    reported as unknown, and the envelope names it. *)
Lemma unknown_tool_envelope (name : string) (args : option object)
    (config : McpConfig) (log : list Request) :
  registry_get name = None →
  callTool name args config log = (Throw (Error ("Unknown tool: " +:+ name)), log) ∧
  ∃ text,
    CallToolRequest_handler config (mkCall name args) log
    = ({| content := [mkBlock "text" (Some text)]; isError := Some true |}, log)
    ∧ occurs_in (escape ("Unknown tool: " +:+ name)) text.
Proof.
  intros H. unfold CallToolRequest_handler, callTool. simpl. rewrite H.
  split; [reflexivity|]. unfold throw. simpl.
  destruct (error_text_shows_message ("Unknown tool: " +:+ name) JUndefined)
    as (text & -> & Hocc).
  by exists text.
Qed.

(** ** The claims about dispatch *)

(** C1, as the code has it — callTool does not validate arguments against
    the inputSchema: for every registered tool and every argument object,
    conforming or not, it runs the tool's handler on that object, and
    transcribe_v2 sends the object downstream as the request body. *)
Theorem callTool_runs_handler_unvalidated
    (name : string) (tool : Tool) (args : object) (config : McpConfig)
    (log : list Request) :
  In (name, tool) toolRegistry →
  callTool name (Some args) config log = handler tool args config log ∧
  callTool "transcribe_v2" (Some args) config log
  = (requestJson (request_of config "/api/v2/transcribe" POST (Some args) None),
     log ++ [request_of config "/api/v2/transcribe" POST (Some args) None]) ∧
  body (request_of config "/api/v2/transcribe" POST (Some args) None)
  = Some (JObject args).
Proof.
  intros Hin. split_and!.
  - unfold callTool, registry_get. by rewrite (own_tool_registered name tool Hin).
  - reflexivity.
  - reflexivity.
Qed.


(** C5, at the input where the code departs from the claim — the name
    "constructor" is not a tool of the registry, yet the property read
    [toolRegistry[name]] finds Object.prototype.constructor, so no
    "Unknown tool" error is raised: the call fails on the missing handler
    and the error envelope carries that message, which does not name the
    tool. *)
Theorem callTool_inherited_name
    (args : option object) (config : McpConfig) (log : list Request) :
  own_tool "constructor" toolRegistry = None ∧
  callTool "constructor" args config log
  = (Throw (TypeError "tool.handler is not a function"), log) ∧
  CallToolRequest_handler config (mkCall "constructor" args) log
  = ({| content :=
          [mkBlock "text"
             (Some ("{" +:+ LF +:+ "  " +:+ quote "error" +:+ ": "
                    +:+ quote "tool.handler is not a function" +:+ LF +:+ "}"))];
        isError := Some true |}, log).
Proof. split_and!; reflexivity. Qed.

(** ** Further properties of the registry and of the handlers *)

Lemma own_tool_cases name tool :
  own_tool name toolRegistry = Some tool →
  tool = transcribe_v2 ∨ tool = list_transcripts ∨ tool = get_transcript
  ∨ tool = get_stats ∨ tool = delete_transcript.
Proof.
  unfold toolRegistry. simpl.
  repeat match goal with
         | |- context [String.eqb name ?k] => destruct (String.eqb name k)
         end; intros [=]; subst;
    first [by left | by right; left | by do 2 right; left
          | by do 3 right; left | by do 4 right].
Qed.

(** X8 — every listed tool can be called by its listed name.  The names
    returned by listTools are pairwise distinct, none of them is a property
    of Object.prototype, and looking a listed name up in the registry finds
    the tool whose schema was listed. *)
Theorem listed_tools_are_callable :
  NoDup (List.map name listTools) ∧
  (∀ s, s ∈ listTools →
     ∃ tool, registry_get (name s) = Some (OwnTool tool) ∧ schema tool = s) ∧
  (∀ s, s ∈ listTools → existsb (String.eqb (name s)) Object_prototype = false).
Proof.
  split_and!.
  - unfold listTools, toolRegistry. simpl.
    repeat (apply NoDup_cons; split; [set_unfold; intros H; decompose [or] H; done|]).
    apply NoDup_nil_2.
  - intros s Hs. unfold listTools, toolRegistry in Hs. simpl in Hs. set_unfold in Hs.
    destruct Hs as [->|[->|[->|[->|[->|[]]]]]]; eexists; split; reflexivity.
  - intros s Hs. unfold listTools, toolRegistry in Hs. simpl in Hs. set_unfold in Hs.
    destruct Hs as [->|[->|[->|[->|[->|[]]]]]]; reflexivity.
Qed.

(** A downstream request built from the ambient configuration. *)
Definition configured (config : McpConfig) (r : Request) : Prop :=
  baseUrl r = config_baseUrl config ∧
  timeoutMs r = config_timeoutMs config ∧
  headers r = authHeaders (config_apiKey config) ∧
  match method r with
  | GET => body r = None
  | POST => query r = None ∧ ∃ o, body r = Some (JObject o)
  end.

Lemma request_of_configured config path method args query :
  configured config (request_of config path method args query).
Proof.
  unfold configured, request_of. simpl. split_and!; try done.
  destruct method; [done|]. split; [done|]. by eexists.
Qed.

(** The string ids and the video id that delete_transcript reads from its
    arguments. *)
Definition string_ids (args : object) : list value :=
  match own "ids" args with
  | JArray items => List.filter is_string items
  | _ => []
  end.
Definition target_video (args : object) : string :=
  match own "video_id" args with
  | JString s => trim s
  | _ => ""
  end.

Lemma filter_is_string (items : list value) :
  forallb is_string (List.filter is_string items) = true.
Proof.
  induction items as [|x items IH]; simpl; [done|].
  destruct (is_string x) eqn:E; simpl; [by rewrite E|done].
Qed.

(** What delete_transcript does, case by case. *)
Lemma delete_transcript_cases (args : object) (config : McpConfig) (log : list Request) :
  let lookup := request_of config
                  ("/api/v1/transcripts/" +:+ encodeURIComponent (target_video args))
                  GET None None in
  let bulk ids := request_of config "/api/v1/transcripts/bulk-delete" POST
                    (Some [("ids", JArray ids)]) None in
  handler delete_transcript args config log
  = if Nat.eqb (length (string_ids args)) 0 && truthy (Some (target_video args)) then
      match requestJson lookup with
      | Throw e => (Throw e, log ++ [lookup])
      | Ok transcript =>
          match prop "id" transcript with
          | JString id =>
              if truthy (Some id) then
                (requestJson (bulk [JString id]), (log ++ [lookup]) ++ [bulk [JString id]])
              else (Throw (Error "Provide `ids` or `video_id` to delete transcripts."),
                    log ++ [lookup])
          | _ => (Throw (Error "Provide `ids` or `video_id` to delete transcripts."),
                  log ++ [lookup])
          end
      end
    else if Nat.eqb (length (string_ids args)) 0 then
      (Throw (Error "Provide `ids` or `video_id` to delete transcripts."), log)
    else (requestJson (bulk (string_ids args)), log ++ [bulk (string_ids args)]).
Proof.
  intros lookup bulk. unfold delete_transcript. cbn [handler].
  fold (string_ids args). fold (target_video args).
  unfold mbind, Io_bind, mret, Io_ret, callYtsmV2, await_requestJson, throw.
  fold lookup.
  destruct (Nat.eqb (length (string_ids args)) 0) eqn:Hlen;
    destruct (truthy (Some (target_video args))) eqn:Hv; simpl.
  - destruct (requestJson lookup) as [transcript|e]; [|done].
    destruct (prop "id" transcript) as [| |b|n|[|c id]|items|members];
      try (by rewrite Hlen).
    reflexivity.
  - by rewrite Hlen.
  - by rewrite Hlen.
  - by rewrite Hlen.
Qed.

Lemma registry_get_own name tool :
  registry_get name = Some (OwnTool tool) → own_tool name toolRegistry = Some tool.
Proof.
  unfold registry_get. destruct (own_tool name toolRegistry) as [tool'|].
  - by intros [= ->].
  - by destruct (existsb (String.eqb name) Object_prototype).
Qed.

Ltac all_configured :=
  repeat (apply Forall_cons_2; [apply request_of_configured|]); apply Forall_nil_2.

(** X9 — every downstream request carries the ambient configuration.
    Whatever the tool name and the arguments, a call adds at most two
    requests to those already issued, and each of them has the base address
    and the timeout of the configuration and the three headers with the
    configured key as bearer token; a GET request has no body, a POST
    request has an object as body and no query. *)
Theorem requests_carry_configuration
    (name : string) (args : option object) (config : McpConfig) (log : list Request) :
  ∃ issued,
    (callTool name args config log).2 = log ++ issued ∧
    Forall (configured config) issued ∧
    length issued ≤ 2.
Proof.
  unfold callTool. destruct (registry_get name) as [[tool|]|] eqn:E.
  - apply registry_get_own, own_tool_cases in E.
    destruct E as [->|[->|[->|[->| ->]]]].
    + eexists [_]. split; [reflexivity|]. split; [|simpl; lia].
      all_configured.
    + eexists [_]. split; [reflexivity|]. split; [|simpl; lia].
      all_configured.
    + eexists [_]. split; [reflexivity|]. split; [|simpl; lia].
      all_configured.
    + eexists [_; _]. split.
      * unfold get_stats. cbn [handler].
        unfold mbind, Io_bind, mret, Io_ret, Promise_all2.
        destruct (requestJson _) as [v1|e1]; destruct (requestJson _) as [v2|e2];
          reflexivity.
      * split; [|simpl; lia]. all_configured.
    + rewrite delete_transcript_cases.
      destruct (Nat.eqb (length (string_ids (default [] args))) 0);
        destruct (truthy (Some (target_video (default [] args)))); simpl.
      * destruct (requestJson _) as [transcript|e].
        -- destruct (prop "id" transcript) as [| |b|n|id|items|members];
             try (eexists [_]; split; [reflexivity|]; split; [|simpl; lia];
                  all_configured).
           destruct id as [|c id'].
           ++ eexists [_]. split; [reflexivity|]. split; [|simpl; lia].
              all_configured.
           ++ eexists [_; _]. split; [by rewrite <- app_assoc|].
              split; [|simpl; lia]. all_configured.
        -- eexists [_]. split; [reflexivity|]. split; [|simpl; lia].
           all_configured.
      * exists []. split; [by rewrite app_nil_r|]. split; [apply Forall_nil_2|simpl; lia].
      * eexists [_]. split; [reflexivity|]. split; [|simpl; lia].
        all_configured.
      * eexists [_]. split; [reflexivity|]. split; [|simpl; lia].
        all_configured.
  - exists []. split; [by rewrite app_nil_r|]. split; [apply Forall_nil_2|simpl; lia].
  - exists []. split; [by rewrite app_nil_r|]. split; [apply Forall_nil_2|simpl; lia].
Qed.

(** X10 — delete_transcript refuses a call without a target.  When the
    arguments hold no string in [ids] (absent, not an array, empty, or
    without strings) and no [video_id] that is a string with something left
    after trimming, the call rejects with the message asking for [ids] or
    [video_id] and no downstream request is issued. *)
Theorem delete_transcript_requires_target
    (args : object) (config : McpConfig) (log : list Request) :
  string_ids args = [] →
  truthy (Some (target_video args)) = false →
  callTool "delete_transcript" (Some args) config log
  = (Throw (Error "Provide `ids` or `video_id` to delete transcripts."), log).
Proof.
  intros Hids Hv.
  change (callTool "delete_transcript" (Some args) config log)
    with (handler delete_transcript args config log).
  rewrite delete_transcript_cases. by rewrite Hids, Hv.
Qed.

(** X11 — delete_transcript never asks to delete nothing, and explicit ids
    win.  Every bulk-delete request it issues carries a non-empty list of
    strings as [ids]; when the arguments hold string ids, exactly one
    request is issued, the bulk delete of those ids (values of [ids] that
    are not strings are dropped, and [video_id] is not looked at). *)
Theorem delete_transcript_bulk_request
    (args : object) (config : McpConfig) (log : list Request) :
  (∃ issued,
     (callTool "delete_transcript" (Some args) config log).2 = log ++ issued ∧
     ∀ r, r ∈ issued → method r = POST →
       path r = "/api/v1/transcripts/bulk-delete" ∧
       ∃ ids, body r = Some (JObject [("ids", JArray ids)]) ∧
              ids ≠ [] ∧ forallb is_string ids = true) ∧
  (string_ids args ≠ [] →
   callTool "delete_transcript" (Some args) config log
   = (requestJson (request_of config "/api/v1/transcripts/bulk-delete" POST
                     (Some [("ids", JArray (string_ids args))]) None),
      log ++ [request_of config "/api/v1/transcripts/bulk-delete" POST
                (Some [("ids", JArray (string_ids args))]) None])).
Proof.
  change (callTool "delete_transcript" (Some args) config log)
    with (handler delete_transcript args config log).
  rewrite delete_transcript_cases. split.
  - destruct (Nat.eqb (length (string_ids args)) 0) eqn:Hlen;
      destruct (truthy (Some (target_video args))); simpl.
    + destruct (requestJson _) as [transcript|e].
      * destruct (prop "id" transcript) as [| |b|n|id|items|members];
          try (eexists [_]; split; [reflexivity|];
               intros r Hr; apply list_elem_of_singleton in Hr as ->; discriminate).
        destruct id as [|c id'].
        -- eexists [_]. split; [reflexivity|].
           intros r Hr. apply list_elem_of_singleton in Hr as ->. discriminate.
        -- eexists [_; _]. split; [by rewrite <- app_assoc|].
           intros r Hr. set_unfold in Hr. destruct Hr as [->|[->|[]]]; [discriminate|].
           intros _. split; [reflexivity|]. exists [JString (String c id')].
           by split_and!.
      * eexists [_]. split; [reflexivity|].
        intros r Hr. apply list_elem_of_singleton in Hr as ->. discriminate.
    + exists []. split; [by rewrite app_nil_r|]. intros r Hr. by apply not_elem_of_nil in Hr.
    + eexists [_]. split; [reflexivity|].
      intros r Hr. apply list_elem_of_singleton in Hr as ->. intros _.
      split; [reflexivity|]. exists (string_ids args). split_and!; [done| |].
      * intros Hnil. by rewrite Hnil in Hlen.
      * unfold string_ids. destruct (own "ids" args); try done. apply filter_is_string.
    + eexists [_]. split; [reflexivity|].
      intros r Hr. apply list_elem_of_singleton in Hr as ->. intros _.
      split; [reflexivity|]. exists (string_ids args). split_and!; [done| |].
      * intros Hnil. by rewrite Hnil in Hlen.
      * unfold string_ids. destruct (own "ids" args); try done. apply filter_is_string.
  - intros Hne. destruct (string_ids args) as [|x ids] eqn:E; [done|]. simpl.
    reflexivity.
Qed.

Definition is_nullish (v : value) : bool :=
  match v with JUndefined | JNull => true | _ => false end.

Lemma nullish_default (a b : value) :
  is_nullish b = false → is_nullish (nullish a b) = false.
Proof. by destruct a. Qed.

(** X12 — get_stats always issues both requests and never reports a
    missing figure.  Whatever its arguments, the handler issues the credits
    request and the history request; when both resolve it resolves to an
    object with exactly the members credits, transcripts_total, plan and
    rate_limit, none of which is null or undefined, whatever the shape of
    the two answers; when one of them rejects it rejects. *)
Theorem get_stats_result (args : option object) (config : McpConfig) (log : list Request) :
  let credits_request := request_of config "/api/v1/credits" GET None None in
  let history_request :=
    request_of config "/api/v1/history" GET None
      (Some [("limit", JNumber (lit 1)); ("page", JNumber (lit 1))]) in
  (callTool "get_stats" args config log).2 = log ++ [credits_request; history_request] ∧
  match requestJson credits_request, requestJson history_request with
  | Ok _, Ok _ =>
      ∃ credits total plan rate,
        (callTool "get_stats" args config log).1
        = Ok (JObject [("credits", credits); ("transcripts_total", total);
                       ("plan", plan); ("rate_limit", rate)]) ∧
        is_nullish credits = false ∧ is_nullish total = false ∧
        is_nullish plan = false ∧ is_nullish rate = false
  | _, _ => ∃ e, (callTool "get_stats" args config log).1 = Throw e
  end.
Proof.
  intros credits_request history_request.
  change (callTool "get_stats" args config log)
    with (handler get_stats (default [] args) config log).
  unfold get_stats. cbn [handler].
  unfold mbind, Io_bind, mret, Io_ret, Promise_all2.
  fold credits_request. fold history_request.
  destruct (requestJson credits_request) as [c|e1];
    destruct (requestJson history_request) as [h|e2]; simpl; (split; [reflexivity|]).
  - eexists _, _, _, _. split; [reflexivity|].
    split_and!; by apply nullish_default.
  - by eexists.
  - by eexists.
  - by eexists.
Qed.

(** Characters that JSON.stringify writes as they are. *)
Definition plain_char (c : ascii) : bool :=
  let n := nat_of_ascii c in
  Nat.leb 32 n && negb (Nat.eqb n 34) && negb (Nat.eqb n 92).

Fixpoint plain (s : string) : bool :=
  match s with
  | EmptyString => true
  | String c s' => plain_char c && plain s'
  end.

Lemma escape_char_plain c : plain_char c = true → escape_char c = String c EmptyString.
Proof.
  unfold plain_char, escape_char. set (n := nat_of_ascii c). intros H.
  apply andb_true_iff in H as [H H92]. apply andb_true_iff in H as [H32 H34].
  apply Nat.leb_le in H32. apply negb_true_iff in H34, H92. rewrite H34, H92.
  repeat match goal with
         | |- context [Nat.eqb n ?b] => destruct (Nat.eqb_spec n b); [lia|]
         end.
  destruct (Nat.ltb_spec n 32); [lia|]. reflexivity.
Qed.

Lemma escape_plain s : plain s = true → escape s = s.
Proof.
  induction s as [|c s IH]; [done|]. simpl. intros H.
  apply andb_true_iff in H as [Hc Hs]. by rewrite escape_char_plain, IH.
Qed.

Lemma escape_app a b : escape (a +:+ b) = escape a +:+ escape b.
Proof.
  induction a as [|c a IH]; [done|].
  change (escape_char c +:+ escape (a +:+ b) = (escape_char c +:+ escape a) +:+ escape b).
  by rewrite IH, string_app_assoc.
Qed.

(** X13 — an unknown tool is named verbatim.  For a name that is neither a
    registered tool nor a property of Object.prototype and that consists of
    printable characters other than the double quote and the backslash, the
    request is answered by an error envelope whose text contains
    "Unknown tool: " followed by the name exactly as it was sent, and no
    downstream request is issued. *)
Theorem unknown_tool_named_verbatim
    (name : string) (args : option object) (config : McpConfig) (log : list Request) :
  registry_get name = None →
  plain name = true →
  ∃ text,
    CallToolRequest_handler config (mkCall name args) log
    = ({| content := [mkBlock "text" (Some text)]; isError := Some true |}, log) ∧
    occurs_in ("Unknown tool: " +:+ name) text.
Proof.
  intros Hget Hplain.
  destruct (unknown_tool_envelope name args config log Hget) as (_ & text & Heq & Hocc).
  exists text. split; [exact Heq|].
  rewrite escape_app, (escape_plain name Hplain) in Hocc. exact Hocc.
Qed.

Lemma stringify_defined indent (v : value) :
  v ≠ JUndefined → is_Some (stringify Number_toJSON indent v).
Proof.
  destruct v as [| |[]|n|s|[|x items]|members]; intros H; try done; simpl; eauto.
  match goal with |- is_Some (match ?e with _ => _ end) => destruct e end; eauto.
Qed.

(** X14 — an envelope lacks its text only for an undefined result.  The
    text block of the envelope of a tools/call request is a string in every
    case but one: when the tool resolves to [undefined], the [text] member
    is undefined. *)
Theorem envelope_text_presence
    (config : McpConfig) (req : CallToolRequest) (log : list Request) :
  let called :=
    callTool (params_name req) (Some (default [] (params_arguments req))) config log in
  let result := (CallToolRequest_handler config req log).1 in
  (called.1 = Ok JUndefined ∧ content result = [mkBlock "text" None])
  ∨ (called.1 ≠ Ok JUndefined ∧ ∃ text, content result = [mkBlock "text" (Some text)]).
Proof.
  intros called result. subst result. unfold CallToolRequest_handler. fold called.
  destruct called as [[v|error] log'] eqn:E; simpl.
  - destruct v as [| |b|n|s|items|members]; [by left|right..];
      (split; [done|]); try (by eexists).
    + destruct (stringify_defined "" (JBool b)) as [text Ht]; [done|].
      unfold jsonText. rewrite Ht. by eexists.
    + destruct (stringify_defined "" (JArray items)) as [text Ht]; [done|].
      unfold jsonText. rewrite Ht. by eexists.
    + destruct (stringify_defined "" (JObject members)) as [text Ht]; [done|].
      unfold jsonText. rewrite Ht. by eexists.
  - right. split; [done|]. rewrite error_text. by eexists.
Qed.

End Dispatch.

(** ** A concrete deployment

    Numbers are integers; the downstream API completes a transcription,
    refuses the credits request with 503 and answers null elsewhere. *)
Definition demo_ToString (v : value Z) : string :=
  match v with
  | JString s => s
  | JNumber n => pretty n
  | _ => ""
  end.

Definition rate_limited : string :=
  "{" +:+ quote "error" +:+ ":" +:+ quote "rate limited" +:+ "}".

Definition demo_JSON_parse (text : string) : option (value Z) :=
  if String.eqb text rate_limited then Some (JObject [("error", JString "rate limited")])
  else None.

Definition demo_requestJson (r : @Request Z) : outcome (value Z) :=
  if String.eqb (path r) "/api/v2/transcribe" then
    Ok (JObject [("status", JString "completed")])
  else if String.eqb (path r) "/api/v1/credits" then
    Throw (HttpError "HTTP 503" 503 (Some rate_limited))
  else Ok JNull.

Definition testConfig : @McpConfig Z :=
  {| config_baseUrl := "http://localhost:3000";
     config_apiKey := "test-api-key";
     config_timeoutMs := 5000%Z;
     config_debug := false |}.

Definition demo_callTool :=
  @callTool Z id demo_ToString id id demo_requestJson false.

Definition demo_handler :=
  @CallToolRequest_handler Z id pretty demo_ToString id id demo_JSON_parse
    demo_requestJson false.

(** The cases of index.test.ts. *)
Example listTools_names :
  List.map name (@listTools Z id demo_ToString id id demo_requestJson false)
  = ["transcribe_v2"; "list_transcripts"; "get_transcript"; "get_stats";
     "delete_transcript"].
Proof. reflexivity. Qed.

Example delete_transcript_validates_arguments :
  demo_callTool "delete_transcript" (Some []) testConfig []
  = (Throw (Error "Provide `ids` or `video_id` to delete transcripts."), []).
Proof. reflexivity. Qed.

Example callTool_throws_for_unknown_tool :
  demo_callTool "unknown_tool" (Some []) testConfig []
  = (Throw (Error "Unknown tool: unknown_tool"), []).
Proof. reflexivity. Qed.

(** A downstream failure with status 503 and a JSON body. *)
Example downstream_failure_envelope :
  (demo_handler testConfig (mkCall "get_stats" None) []).1
  = {| content :=
         [mkBlock "text"
            (Some ("{" +:+ LF +:+
                   "  " +:+ quote "error" +:+ ": " +:+ quote "HTTP 503" +:+ "," +:+ LF +:+
                   "  " +:+ quote "details" +:+ ": {" +:+ LF +:+
                   "    " +:+ quote "error" +:+ ": " +:+ quote "rate limited" +:+ LF +:+
                   "  }" +:+ LF +:+
                   "}"))];
       isError := Some true |}.
Proof. vm_compute. reflexivity. Qed.

Example success_envelope :
  (demo_handler testConfig
     (mkCall "transcribe_v2" (Some [("video", JString "jNQXAC9IVRw")])) []).1
  = {| content :=
         [mkBlock "text"
            (Some ("{" +:+ LF +:+
                   "  " +:+ quote "status" +:+ ": " +:+ quote "completed" +:+ LF +:+
                   "}"))];
       isError := None |}.
Proof. vm_compute. reflexivity. Qed.

(** C1, refuted — the empty argument object violates the inputSchema of
    transcribe_v2, which requires [video]; callTool does not refuse it: the
    handler runs, the downstream request is issued with the empty object as
    body, and the call resolves. *)
Lemma callTool_accepts_missing_required :
  In ("transcribe_v2", @transcribe_v2 Z demo_requestJson)
     (@toolRegistry Z id demo_ToString id id demo_requestJson false) ∧
  conforms (inputSchema (schema (@transcribe_v2 Z demo_requestJson)))
    (JObject ([] : list (string * value Z))) = false ∧
  demo_callTool "transcribe_v2" (Some []) testConfig []
  = (Ok (JObject [("status", JString "completed")]),
     [request_of testConfig "/api/v2/transcribe" POST (Some []) None]) ∧
  ¬ refused_before_handler (demo_callTool "transcribe_v2" (Some []) testConfig []).
Proof.
  split; [by left|]. split; [reflexivity|]. split; [reflexivity|].
  intros [[e He] Hlog]. discriminate He.
Qed.

Lemma callTool_runs_handler_unvalidated_witness :
  In ("transcribe_v2", @transcribe_v2 Z demo_requestJson)
     (@toolRegistry Z id demo_ToString id id demo_requestJson false) ∧
  demo_callTool "transcribe_v2" (Some []) testConfig []
  = handler (@transcribe_v2 Z demo_requestJson) [] testConfig [].
Proof.
  split; [by left|].
  apply (callTool_runs_handler_unvalidated id demo_ToString id id demo_requestJson false
           "transcribe_v2" (@transcribe_v2 Z demo_requestJson) [] testConfig []).
  by left.
Defined.

Lemma delete_transcript_requires_target_witness :
  let args : list (string * value Z) :=
    [("ids", JArray [JNumber 7%Z]); ("video_id", JString "")] in
  string_ids args = [] ∧
  truthy (Some (target_video id args)) = false ∧
  demo_callTool "delete_transcript" (Some args) testConfig []
  = (Throw (Error "Provide `ids` or `video_id` to delete transcripts."), []).
Proof.
  intros args. split; [reflexivity|]. split; [reflexivity|].
  exact (delete_transcript_requires_target id demo_ToString id id demo_requestJson false
           args testConfig [] eq_refl eq_refl).
Defined.

Lemma unknown_tool_named_verbatim_witness :
  registry_get id demo_ToString id id demo_requestJson false "unknown_tool" = None ∧
  plain "unknown_tool" = true ∧
  ∃ text,
    demo_handler testConfig (mkCall "unknown_tool" (Some [])) []
    = ({| content := [mkBlock "text" (Some text)]; isError := Some true |}, []) ∧
    occurs_in ("Unknown tool: " +:+ "unknown_tool") text.
Proof.
  split; [reflexivity|]. split; [reflexivity|].
  exact (unknown_tool_named_verbatim id pretty demo_ToString id id demo_JSON_parse
           demo_requestJson false "unknown_tool" (Some []) testConfig []
           eq_refl eq_refl).
Defined.

End Mcp.

(* ===================================================================== *)
(** * Formatter: transcript-formatter.ts                                  *)
(* ===================================================================== *)
Module Formatter.

(** ** White space

    A string of the source is represented by its UTF-8 bytes.  The class
    [\s] of a regular expression is made of the WhiteSpace and
    LineTerminator code points of ECMAScript; a white-space character is
    recognised by its encoding. *)
Definition utf8 (bytes : list nat) : string :=
  foldr (λ b s, String (ascii_of_nat b) s) EmptyString bytes.

Definition white_space : list string :=
  utf8 <$>
    [ [9]; [10]; [11]; [12]; [13]; [32];           (* TAB LF VT FF CR SP *)
      [194; 160];                                   (* U+00A0 *)
      [225; 154; 128];                              (* U+1680 *)
      [226; 128; 128]; [226; 128; 129]; [226; 128; 130]; [226; 128; 131];
      [226; 128; 132]; [226; 128; 133]; [226; 128; 134]; [226; 128; 135];
      [226; 128; 136]; [226; 128; 137]; [226; 128; 138];  (* U+2000 to U+200A *)
      [226; 128; 168]; [226; 128; 169];             (* U+2028, U+2029 *)
      [226; 128; 175];                              (* U+202F *)
      [226; 129; 159];                              (* U+205F *)
      [227; 128; 128];                              (* U+3000 *)
      [239; 187; 191] ].                            (* U+FEFF *)

Fixpoint starts_with (e s : string) : bool :=
  match e, s with
  | EmptyString, _ => true
  | String a e', String b s' => Ascii.eqb a b && starts_with e' s'
  | String _ _, EmptyString => false
  end.

(** The number of bytes of the white-space character that [s] starts with,
    0 when it starts with none. *)
Definition white_space_width (s : string) : nat :=
  match List.find (λ e, starts_with e s) white_space with
  | Some e => String.length e
  | None => 0
  end.

(** [s.split(/\s+/).filter(Boolean).length]: the number of maximal runs of
    characters that are not white space.  [skip] bytes of a white-space
    character are still to be passed over; [in_word] tells whether the
    character before was part of a word. *)
Fixpoint count_words (skip : nat) (in_word : bool) (s : string) : nat :=
  match s with
  | EmptyString => 0
  | String c s' =>
      match skip with
      | S k => count_words k in_word s'
      | 0 =>
          match white_space_width s with
          | 0 => (if in_word then 0 else 1) + count_words 0 true s'
          | S k => count_words k false s'
          end
      end
  end.

Section Formatter.

(** JavaScript numbers (IEEE 754 doubles) and the operations on them that
    the formatter uses are parameters: [lit] gives the numeric literals,
    [div], [rem] and [mul] are [/], [%] and [*], [Number_toString] is
    [Number.prototype.toString], [falsy] holds of [0] and [NaN], and
    [toLocaleString] renders a count for the current locale. *)
Context {number : Type}.
Variable lit : Z → number.
Variable div rem mul : number → number → number.
Variable Math_floor : number → number.
Variable Number_toString : number → string.
Variable falsy : number → bool.
Variable toLocaleString : nat → string.

Record TranscriptSegment : Type := mkSegment {
  text : string;
  start : option number;
  end_ : option number;
  duration : option number;
}.

Definition formatSRT (seconds : number) : string :=
  let hrs := Math_floor (div seconds (lit 3600)) in
  let mins := Math_floor (div (rem seconds (lit 3600)) (lit 60)) in
  let secs := Math_floor (rem seconds (lit 60)) in
  let ms := Math_floor (mul (rem seconds (lit 1)) (lit 1000)) in
  padStart 2 "0" (Number_toString hrs) +:+ ":" +:+
  padStart 2 "0" (Number_toString mins) +:+ ":" +:+
  padStart 2 "0" (Number_toString secs) +:+ "," +:+
  padStart 3 "0" (Number_toString ms).

Definition formatVTT (seconds : number) : string :=
  let hrs := Math_floor (div seconds (lit 3600)) in
  let mins := Math_floor (div (rem seconds (lit 3600)) (lit 60)) in
  let secs := Math_floor (rem seconds (lit 60)) in
  let ms := Math_floor (mul (rem seconds (lit 1)) (lit 1000)) in
  padStart 2 "0" (Number_toString hrs) +:+ ":" +:+
  padStart 2 "0" (Number_toString mins) +:+ ":" +:+
  padStart 2 "0" (Number_toString secs) +:+ "." +:+
  padStart 3 "0" (Number_toString ms).

Definition formatTime (ms : number) : string :=
  let totalSeconds := Math_floor (div ms (lit 1000)) in
  let mins := Math_floor (div totalSeconds (lit 60)) in
  let secs := rem totalSeconds (lit 60) in
  Number_toString mins +:+ ":" +:+ padStart 2 "0" (Number_toString secs).

Record ExportOptions : Type := mkOptions {
  videoId : string;
  videoTitle : option string;
  segments : list TranscriptSegment;
  plainText : option string;
}.

(** [(seg.start ?? 0) / 1000] and [(seg.end ?? seg.start ?? 0) / 1000] *)
Definition startSec (seg : TranscriptSegment) : number :=
  div (default (lit 0) (start seg)) (lit 1000).
Definition endSec (seg : TranscriptSegment) : number :=
  div (default (default (lit 0) (start seg)) (end_ seg)) (lit 1000).

(** The cue of the segment at index [i]; an array index and its successor
    print as decimal numerals. *)
Definition srt_cue (i : nat) (seg : TranscriptSegment) : string :=
  pretty (i + 1) +:+ LF +:+ formatSRT (startSec seg) +:+ " --> " +:+
  formatSRT (endSec seg) +:+ LF +:+ text seg.

Definition vtt_cue (seg : TranscriptSegment) : string :=
  formatVTT (startSec seg) +:+ " --> " +:+ formatVTT (endSec seg) +:+ LF +:+ text seg.

Definition exportTranscript (options : ExportOptions) (format : string) : outcome string :=
  let segments := segments options in
  if String.eqb format "plain" then
    Ok (default (join (LF +:+ LF) (List.map text segments)) (plainText options))
  else if String.eqb format "srt" then
    Ok (join (LF +:+ LF) (imap srt_cue segments))
  else if String.eqb format "vtt" then
    Ok ("WEBVTT" +:+ LF +:+ LF +:+ join (LF +:+ LF) (List.map vtt_cue segments))
  else if String.eqb format "markdown" then
    let title :=
      if truthy (videoTitle options) then default "" (videoTitle options)
      else "Transcript for " +:+ videoId options in
    let duration :=
      match last segments with
      | Some seg =>
          match end_ seg with
          | Some e => if falsy e then lit 0 else Math_floor (div e (lit 1000))
          | None => lit 0
          end
      | None => lit 0
      end in
    let words :=
      count_words 0 false
        (default (join " " (List.map text segments)) (plainText options)) in
    Ok ("# " +:+ title +:+ LF +:+ LF +:+
        "**Video ID:** " +:+ videoId options +:+ LF +:+
        "**Duration:** " +:+ Number_toString (Math_floor (div duration (lit 60))) +:+ ":" +:+
          padStart 2 "0" (Number_toString (rem duration (lit 60))) +:+ LF +:+
        "**Words:** " +:+ toLocaleString words +:+ LF +:+ LF +:+
        "## Transcript" +:+ LF +:+ LF +:+
        join (LF +:+ LF)
          (List.map (λ seg, "**[" +:+ formatTime (default (lit 0) (start seg)) +:+ "]** "
                            +:+ text seg) segments))
  else Throw (Error ("Unsupported format: " +:+ format)).


(** ** Facts about padding *)

Lemma padStart_long (n : nat) (pad s : string) :
  n ≤ String.length s → padStart n pad s = s.
Proof.
  intros H. unfold padStart. replace (n - String.length s) with 0 by lia. done.
Qed.

(** The four fields of a timestamp. *)
Definition hours (seconds : number) : string :=
  Number_toString (Math_floor (div seconds (lit 3600))).
Definition minutes (seconds : number) : string :=
  Number_toString (Math_floor (div (rem seconds (lit 3600)) (lit 60))).
Definition whole_seconds (seconds : number) : string :=
  Number_toString (Math_floor (rem seconds (lit 60))).
Definition milliseconds (seconds : number) : string :=
  Number_toString (Math_floor (mul (rem seconds (lit 1)) (lit 1000))).

Lemma formatSRT_fields (seconds : number) :
  formatSRT seconds
  = zeros (2 - String.length (hours seconds)) +:+ hours seconds +:+ ":" +:+
    zeros (2 - String.length (minutes seconds)) +:+ minutes seconds +:+ ":" +:+
    zeros (2 - String.length (whole_seconds seconds)) +:+ whole_seconds seconds +:+ "," +:+
    zeros (3 - String.length (milliseconds seconds)) +:+ milliseconds seconds.
Proof.
  unfold formatSRT. rewrite !padStart_zeros, !string_app_assoc. reflexivity.
Qed.

(** ** The claim about the export formats *)


(** ** Further properties of the formatter *)

(** X15 — the four formats and no other.  exportTranscript returns a
    string for "plain", "srt", "vtt" and "markdown", whatever the options,
    and for every other format string it throws the error
    "Unsupported format: " followed by that string. *)
Theorem exportTranscript_formats (options : ExportOptions) (format : string) :
  (format ∈ ["plain"; "srt"; "vtt"; "markdown"] →
   is_ok (exportTranscript options format) = true) ∧
  (format ∉ ["plain"; "srt"; "vtt"; "markdown"] →
   exportTranscript options format = Throw (Error ("Unsupported format: " +:+ format))).
Proof.
  split.
  - intros H. set_unfold in H. destruct H as [->|[->|[->|[->|[]]]]]; reflexivity.
  - intros H. set_unfold in H. unfold exportTranscript.
    destruct (String.eqb_spec format "plain"); [tauto|].
    destruct (String.eqb_spec format "srt"); [tauto|].
    destruct (String.eqb_spec format "vtt"); [tauto|].
    destruct (String.eqb_spec format "markdown"); [tauto|].
    reflexivity.
Qed.

Lemma formatVTT_fields (seconds : number) :
  formatVTT seconds
  = zeros (2 - String.length (hours seconds)) +:+ hours seconds +:+ ":" +:+
    zeros (2 - String.length (minutes seconds)) +:+ minutes seconds +:+ ":" +:+
    zeros (2 - String.length (whole_seconds seconds)) +:+ whole_seconds seconds +:+ "." +:+
    zeros (3 - String.length (milliseconds seconds)) +:+ milliseconds seconds.
Proof.
  unfold formatVTT. rewrite !padStart_zeros, !string_app_assoc. reflexivity.
Qed.

(** X16 — the "vtt" export.  After the header WEBVTT and a blank line come
    the cues of the segments, one per segment and in order, joined by blank
    lines; a cue is the line "start --> end" followed by the segment's text,
    without a cue number; and an instant is written exactly as in the "srt"
    export except that a full stop, not a comma, precedes the
    milliseconds. *)
Theorem vtt_export (options : ExportOptions) :
  (∃ cues,
     exportTranscript options "vtt"
     = Ok ("WEBVTT" +:+ LF +:+ LF +:+ join (LF +:+ LF) cues) ∧
     length cues = length (segments options) ∧
     ∀ i seg, segments options !! i = Some seg →
       cues !! i
       = Some (formatVTT (div (default (lit 0) (start seg)) (lit 1000)) +:+ " --> " +:+
               formatVTT (div (default (default (lit 0) (start seg)) (end_ seg)) (lit 1000))
               +:+ LF +:+ text seg)) ∧
  (∀ seconds, ∃ clock fraction,
     formatSRT seconds = clock +:+ "," +:+ fraction ∧
     formatVTT seconds = clock +:+ "." +:+ fraction ∧
     fraction = padStart 3 "0" (milliseconds seconds)).
Proof.
  split.
  - exists (List.map vtt_cue (segments options)). split_and!.
    + reflexivity.
    + by rewrite length_map.
    + intros i seg H. by rewrite list_lookup_fmap, H.
  - intros seconds.
    exists (padStart 2 "0" (hours seconds) +:+ ":" +:+
            padStart 2 "0" (minutes seconds) +:+ ":" +:+
            padStart 2 "0" (whole_seconds seconds)).
    exists (padStart 3 "0" (milliseconds seconds)).
    unfold formatSRT, formatVTT, hours, minutes, whole_seconds, milliseconds.
    by rewrite !string_app_assoc.
Qed.

(** X17 — the width of an instant.  An instant written by [formatSRT] or
    [formatVTT] has three separators and four fields, each as wide as its
    numeral but at least 2, 2, 2 and 3 characters: it is at least 12
    characters long, and exactly 12 when the numerals of the hours, minutes
    and seconds have at most two characters and that of the milliseconds at
    most three. *)
Theorem instant_width (seconds : number) :
  String.length (formatSRT seconds)
  = 3 + (2 `max` String.length (hours seconds))
      + (2 `max` String.length (minutes seconds))
      + (2 `max` String.length (whole_seconds seconds))
      + (3 `max` String.length (milliseconds seconds)) ∧
  String.length (formatVTT seconds) = String.length (formatSRT seconds) ∧
  12 ≤ String.length (formatSRT seconds) ∧
  (String.length (hours seconds) ≤ 2 → String.length (minutes seconds) ≤ 2 →
   String.length (whole_seconds seconds) ≤ 2 → String.length (milliseconds seconds) ≤ 3 →
   String.length (formatSRT seconds) = 12).
Proof.
  assert (Hs : String.length (formatSRT seconds)
               = 3 + (2 `max` String.length (hours seconds))
                   + (2 `max` String.length (minutes seconds))
                   + (2 `max` String.length (whole_seconds seconds))
                   + (3 `max` String.length (milliseconds seconds))).
  { rewrite formatSRT_fields. rewrite !string_length_app, !zeros_length. simpl. lia. }
  assert (Hv : String.length (formatVTT seconds) = String.length (formatSRT seconds)).
  { rewrite Hs, formatVTT_fields. rewrite !string_length_app, !zeros_length. simpl. lia. }
  split_and!; [done|done|lia|lia].
Qed.

(** ** The word count of joined texts *)

Definition space : ascii := " "%char.

Fixpoint has_space (e : string) : bool :=
  match e with
  | EmptyString => false
  | String a e' => Ascii.eqb a space || has_space e'
  end.

(** No encoding has the space character after its first byte. *)
Definition space_free (e : string) : bool :=
  match e with
  | EmptyString => true
  | String _ e' => negb (has_space e')
  end.

Lemma white_space_space_free : forallb space_free white_space = true.
Proof. vm_compute. reflexivity. Qed.

Lemma starts_with_length (e s : string) :
  starts_with e s = true → String.length e ≤ String.length s.
Proof.
  revert s. induction e as [|a e IH]; intros [|b s] H; simpl in *; try lia; try done.
  apply andb_true_iff in H as [_ H]. apply IH in H. lia.
Qed.

Lemma starts_with_before_space_tail (e s t : string) :
  has_space e = false →
  starts_with e (s +:+ String space t) = starts_with e s.
Proof.
  revert s. induction e as [|a e IH]; intros s He; [by destruct s|].
  simpl in He. apply orb_false_iff in He as [Ha He].
  destruct s as [|b s].
  - change (starts_with (String a e) (String space t) = false). simpl. by rewrite Ha.
  - change (starts_with (String a e) (String b (s +:+ String space t))
            = starts_with (String a e) (String b s)).
    simpl. by rewrite IH.
Qed.

Lemma starts_with_before_space (e s t : string) (c : ascii) :
  space_free e = true →
  starts_with e (String c s +:+ String space t) = starts_with e (String c s).
Proof.
  destruct e as [|a e]; [done|]. intros He. apply negb_true_iff in He.
  change (starts_with (String a e) (String c (s +:+ String space t))
          = starts_with (String a e) (String c s)).
  simpl. by rewrite starts_with_before_space_tail.
Qed.

Lemma white_space_width_before_space (c : ascii) (s t : string) :
  white_space_width (String c s +:+ String space t) = white_space_width (String c s).
Proof.
  unfold white_space_width. pose proof white_space_space_free as H.
  induction white_space as [|e l IH]; [done|].
  simpl in H. apply andb_true_iff in H as [He Hl]. cbn [List.find].
  rewrite (starts_with_before_space e s t c He).
  destruct (starts_with e (String c s)); [done|]. by apply IH.
Qed.

Lemma white_space_width_length (s : string) : white_space_width s ≤ String.length s.
Proof.
  unfold white_space_width.
  destruct (List.find _ white_space) as [e|] eqn:E; [|lia].
  apply find_some in E as [_ E]. by apply starts_with_length.
Qed.

Lemma white_space_width_space (t : string) : white_space_width (String space t) = 1.
Proof. reflexivity. Qed.

Lemma count_words_space (k : nat) (b : bool) (s t : string) :
  k ≤ String.length s →
  count_words k b (s +:+ String space t) = count_words k b s + count_words 0 false t.
Proof.
  revert k b. induction s as [|c s IH]; intros k b Hk.
  - simpl in Hk. assert (k = 0) as -> by lia.
    change (count_words 0 b (String space t) = count_words 0 false t).
    cbn [count_words]. by rewrite white_space_width_space.
  - change (count_words k b (String c (s +:+ String space t))
            = count_words k b (String c s) + count_words 0 false t).
    destruct k as [|k].
    + cbn [count_words].
      change (String c (s +:+ String space t)) with (String c s +:+ String space t).
      rewrite white_space_width_before_space.
      pose proof (white_space_width_length (String c s)) as Hw.
      destruct (white_space_width (String c s)) as [|n].
      * rewrite IH by lia. lia.
      * apply IH. simpl in Hw. lia.
    + cbn [count_words]. apply IH. simpl in Hk. lia.
Qed.

Lemma count_words_join (texts : list string) :
  count_words 0 false (join " " texts) = sum_list (count_words 0 false <$> texts).
Proof.
  induction texts as [|x [|y texts] IH]; [done|simpl; lia|].
  change (join " " (x :: y :: texts)) with (x +:+ String space (join " " (y :: texts))).
  rewrite count_words_space by lia. rewrite IH. reflexivity.
Qed.

(** X18 — the word count of the "markdown" export.  Without a plain text,
    the figure after "**Words:**" is the sum of the word counts of the
    segments' texts, a word being a maximal run of characters outside the
    class [\s]: joining the texts with a space neither merges nor splits
    words. *)
Theorem markdown_word_count (options : ExportOptions) :
  plainText options = None →
  ∃ before after,
    exportTranscript options "markdown"
    = Ok (before +:+ "**Words:** "
          +:+ toLocaleString
                (sum_list (count_words 0 false <$> (text <$> segments options)))
          +:+ after).
Proof.
  intros Hp.
  assert (E : ∃ title minutes seconds rest,
             exportTranscript options "markdown"
             = Ok ("# " +:+ title +:+ LF +:+ LF +:+
                   "**Video ID:** " +:+ videoId options +:+ LF +:+
                   "**Duration:** " +:+ minutes +:+ ":" +:+ seconds +:+ LF +:+
                   "**Words:** " +:+
                   toLocaleString
                     (count_words 0 false
                        (default (join " " (List.map text (segments options)))
                           (plainText options))) +:+ rest)).
  { do 4 eexists. reflexivity. }
  destruct E as (title & m & sec & rest & ->). rewrite Hp.
  change (default ?x None) with x. rewrite count_words_join.
  exists ("# " +:+ title +:+ LF +:+ LF +:+ "**Video ID:** " +:+ videoId options +:+ LF +:+
          "**Duration:** " +:+ m +:+ ":" +:+ sec +:+ LF), rest.
  rewrite !string_app_assoc. reflexivity.
Qed.

End Formatter.

(** ** The formatter on whole seconds

    With integers for numbers (a segment boundary that is a whole number of
    seconds is computed exactly by the doubles of the source as well). *)
Definition demo_srt : @ExportOptions Z → string → outcome string :=
  exportTranscript id Z.div Z.rem Z.mul id pretty (Z.eqb 0) pretty.

Example srt_two_cues :
  demo_srt
    {| videoId := "jNQXAC9IVRw"; videoTitle := Some "Me at the zoo";
       segments := [mkSegment "All right, so here we are" (Some 1000%Z) (Some 4000%Z) None;
                    mkSegment "in front of the elephants" (Some 4000%Z) None None];
       plainText := None |} "srt"
  = Ok ("1" +:+ LF +:+ "00:00:01,000 --> 00:00:04,000" +:+ LF +:+
        "All right, so here we are" +:+ LF +:+ LF +:+
        "2" +:+ LF +:+ "00:00:04,000 --> 00:00:04,000" +:+ LF +:+
        "in front of the elephants").
Proof. vm_compute. reflexivity. Qed.

Example srt_no_segments :
  demo_srt {| videoId := "x"; videoTitle := None; segments := []; plainText := None |} "srt"
  = Ok "".
Proof. reflexivity. Qed.

Example unsupported_format :
  demo_srt {| videoId := "x"; videoTitle := None; segments := []; plainText := None |} "json"
  = Throw (Error "Unsupported format: json").
Proof. reflexivity. Qed.


(** White space that is not ASCII separates words as well: a no-break
    space (U+00A0) and an ideographic space (U+3000) between three words;
    the bytes 195, 160 are one letter and separate nothing. *)
Example words_around_wide_spaces :
  count_words 0 false
    ("voil" +:+ utf8 [195; 160] +:+ utf8 [194; 160] +:+ "deux" +:+ utf8 [227; 128; 128]
     +:+ "trois")
  = 3.
Proof. vm_compute. reflexivity. Qed.

Lemma markdown_word_count_witness :
  let options : @ExportOptions Z :=
    {| videoId := "jNQXAC9IVRw"; videoTitle := None;
       segments := [mkSegment "All right, so here we are" (Some 1000%Z) (Some 4000%Z) None;
                    mkSegment ("  in front of" +:+ utf8 [194; 160] +:+ "the elephants ")
                      (Some 4000%Z) None None];
       plainText := None |} in
  plainText options = None ∧
  ∃ before after,
    demo_srt options "markdown"
    = Ok (before +:+ "**Words:** "
          +:+ pretty (sum_list (count_words 0 false <$> (text <$> segments options)))
          +:+ after).
Proof.
  intros options. split; [reflexivity|].
  exact (markdown_word_count id Z.div Z.rem Z.mul id pretty (Z.eqb 0) pretty options eq_refl).
Defined.

End Formatter.

(* ===================================================================== *)
(** * Server: the create_transcript tool of lib/mcp/server.ts             *)
(* ===================================================================== *)
Module Server.

(** ** Extraction of the video id *)

(** The character class [[a-zA-Z0-9_-]]. *)
Definition is_id_char (c : ascii) : bool :=
  let n := nat_of_ascii c in
  (Nat.leb 97 n && Nat.leb n 122) || (Nat.leb 65 n && Nat.leb n 90)
  || (Nat.leb 48 n && Nat.leb n 57) || Nat.eqb n 95 || Nat.eqb n 45.

Fixpoint all_id_chars (s : string) : bool :=
  match s with
  | EmptyString => true
  | String c s' => is_id_char c && all_id_chars s'
  end.

(** [/^[a-zA-Z0-9_-]{11}$/.test(s)] *)
Definition is_video_id (s : string) : bool :=
  Nat.eqb (String.length s) 11 && all_id_chars s.

Fixpoint strip_prefix (literal s : string) : option string :=
  match literal, s with
  | EmptyString, _ => Some s
  | String a literal', String b s' =>
      if Ascii.eqb a b then strip_prefix literal' s' else None
  | String _ _, EmptyString => None
  end.

(** A regular expression of the form /(?:l1|l2|...)([a-zA-Z0-9_-]{11})/
    is given by the list of its literal alternatives.  [capture_here] is
    the group captured by a match of one alternative that starts at the
    beginning of [s]. *)
Definition capture_here (literal s : string) : option string :=
  match strip_prefix literal s with
  | Some rest =>
      let id := String.substring 0 11 rest in
      if is_video_id id then Some id else None
  | None => None
  end.

Fixpoint first_alternative (literals : list string) (s : string) : option string :=
  match literals with
  | [] => None
  | literal :: literals' =>
      match capture_here literal s with
      | Some id => Some id
      | None => first_alternative literals' s
      end
  end.

(** [s.match(pattern)]: the leftmost match; [Some id] is [match[1]] and
    [None] is [null]. *)
Fixpoint regexp_match (literals : list string) (s : string) : option string :=
  match first_alternative literals s with
  | Some id => Some id
  | None =>
      match s with
      | EmptyString => None
      | String _ s' => regexp_match literals s'
      end
  end.

Definition patterns : list (list string) :=
  [["youtube.com/watch?v="; "youtu.be/"];
   ["youtube.com/embed/"];
   ["youtube.com/v/"]].

(** The [for (const pattern of patterns)] loop: the capture of the first
    pattern that matches. *)
Fixpoint first_match (ps : list (list string)) (video_url : string) : option string :=
  match ps with
  | [] => None
  | pattern :: ps' =>
      match regexp_match pattern video_url with
      | Some id => Some id
      | None => first_match ps' video_url
      end
  end.

Definition extractVideoId (video_url : string) : string :=
  default video_url (first_match patterns video_url).

(** ** The tool *)

Record ContentBlock : Type := mkBlock { type : string; text : string }.
Record ToolResult : Type := mkResult {
  content : list ContentBlock;
  isError : option bool;
}.

Definition result (text : string) : ToolResult :=
  {| content := [mkBlock "text" text]; isError := None |}.
Definition error_result (text : string) : ToolResult :=
  {| content := [mkBlock "text" text]; isError := Some true |}.

Section CreateTranscript.

(** [DB] is the state of the Supabase project and [Segments] the type of
    caption segments. *)
Context {DB Segments : Type}.

Record ExistingRow : Type := mkExisting {
  existing_id : string;
  existing_status : string;
  existing_text : option string;
}.

Record NewRow : Type := mkRow {
  user_id : string;
  video_id : string;
  video_title : string;
  language : string;
  source_kind : string;
  status : string;
  row_text : string;
  created_at : string;
  updated_at : string;
}.

Record CaptionData : Type := mkCaptions {
  caption_text : string;
  caption_segments : Segments;
  caption_language : string;
  caption_source_kind : string;
}.

Inductive Patch : Type :=
| Succeeded (text : string) (segments : Segments) (language source_kind updated_at : string)
| Failed (updated_at error : string).

(** The queries sent to the database, in the order they were issued. *)
Inductive Query : Type :=
| ReadPreferredLanguage (user_id : string)
| SelectTranscript (user_id video_id : string)
| InsertTranscript (row : NewRow)
| UpdateTranscript (id : string) (patch : Patch).

(** Collaborators.  The two language functions are those of
    lib/transcription/language-utils, [getVideoTitle] and
    [fetchCaptionsWithRetry] reach YouTube; the [db_] functions are the
    Supabase queries ([db_insert] and [db_update] give back the [error]
    field of the response, [db_select] its [data] field);
    [toISOString n] is the instant read by the n-th [new Date()]. *)
Variable userId : string.
Variable normalizeLanguageTag : option string → option string.
Variable getUserPreferredLanguage : DB → string → outcome (option string).
Variable getVideoTitle : string → outcome (option string).
Variable fetchCaptionsWithRetry : string → option string → outcome CaptionData.
Variable db_select : DB → string → string → option ExistingRow.
Variable db_insert : DB → NewRow → outcome string * DB.
Variable db_update : DB → string → Patch → option thrown * DB.
Variable toISOString : nat → string.

Record World : Type := mkWorld {
  db : DB;
  queries : list Query;
  ticks : nat;
}.

Definition M (A : Type) : Type := World → outcome A * World.

#[local] Instance M_ret : MRet M := λ A a w, (Ok a, w).
#[local] Instance M_bind : MBind M := λ A B k m w,
  match m w with
  | (Ok a, w') => k a w'
  | (Throw e, w') => (Throw e, w')
  end.

Definition throw {A} (e : thrown) : M A := λ w, (Throw e, w).

Definition try_catch {A} (body : M A) (handler : thrown → M A) : M A :=
  λ w,
    match body w with
    | (Ok a, w') => (Ok a, w')
    | (Throw e, w') => handler e w'
    end.

(** [await] of a computation that does not touch the database. *)
Definition await {A} (o : outcome A) : M A := λ w, (o, w).

Definition await_preferred_language : M (option string) :=
  λ w, (getUserPreferredLanguage (db w) userId,
        {| db := db w; queries := queries w ++ [ReadPreferredLanguage userId];
           ticks := ticks w |}).

Definition await_select (videoId : string) : M (option ExistingRow) :=
  λ w, (Ok (db_select (db w) userId videoId),
        {| db := db w; queries := queries w ++ [SelectTranscript userId videoId];
           ticks := ticks w |}).

(** [const { data, error } = await ...insert(row).select("id").single();
    if (error) throw error] *)
Definition await_insert (row : NewRow) : M string :=
  λ w, let '(res, db') := db_insert (db w) row in
       (res, {| db := db'; queries := queries w ++ [InsertTranscript row];
                ticks := ticks w |}).

Definition await_update (id : string) (patch : Patch) : M (option thrown) :=
  λ w, let '(err, db') := db_update (db w) id patch in
       (Ok err, {| db := db'; queries := queries w ++ [UpdateTranscript id patch];
                   ticks := ticks w |}).

(** [new Date().toISOString()] *)
Definition now : M string :=
  λ w, (Ok (toISOString (ticks w)),
        {| db := db w; queries := queries w; ticks := S (ticks w) |}).

(** [error instanceof Error ? error.message : "Unknown error"] *)
Definition message_of (e : thrown) : string :=
  match e with
  | Error m | TypeError m | HttpError m _ _ => m
  | Thrown _ => "Unknown error"
  end.

(** [x || fallback] on a possibly absent string *)
Definition or_else (x : option string) (fallback : string) : string :=
  if truthy x then default fallback x else fallback.

(** The outer [try] block of the handler, for a well-formed [videoId]. *)
Definition create_transcript_try (videoId : string) (language : option string)
  : M ToolResult :=
  let effectiveLanguage0 :=
    if truthy language then normalizeLanguageTag language else None in
  effectiveLanguage ←
    (if truthy effectiveLanguage0 then mret effectiveLanguage0
     else preferred ← await_preferred_language;
          mret (normalizeLanguageTag preferred));
  existing ← await_select videoId;
  match existing with
  | Some row =>
      if String.eqb (existing_status row) "succeeded" && truthy (existing_text row) then
        mret (Some (result ("Transcript for video " +:+ videoId
                            +:+ " already exists. ID: " +:+ existing_id row)))
      else mret None
  | None => mret None
  end ≫= λ early,
  match early with
  | Some r => mret r
  | None =>
      videoTitle ← await (getVideoTitle videoId);
      nowIso ← now;
      id ← await_insert
              {| user_id := userId;
                 video_id := videoId;
                 video_title := or_else videoTitle "Unknown Title";
                 language := or_else effectiveLanguage "en";
                 source_kind := "auto";
                 status := "processing";
                 row_text := "";
                 created_at := nowIso;
                 updated_at := nowIso |};
      try_catch
        (captionData ← await (fetchCaptionsWithRetry videoId
                                (if truthy effectiveLanguage then effectiveLanguage else None));
         updated_at ← now;
         updateError ← await_update id
            (Succeeded (caption_text captionData) (caption_segments captionData)
               (caption_language captionData)
               (if String.eqb (caption_source_kind captionData) "manual"
                then "manual" else "auto")
               updated_at);
         match updateError with
         | Some e => throw e
         | None =>
             mret (result ("Transcript created successfully. ID: " +:+ id
                           +:+ ". Title: " +:+ or_else videoTitle "Unknown"))
         end)
        (λ processError,
           let msg := message_of processError in
           updated_at ← now;
           _ ← await_update id (Failed updated_at msg);
           mret (error_result ("Failed to fetch captions: " +:+ msg)))
  end.

(** The handler registered for create_transcript.  [createServiceClient()]
    only builds the client object. *)
Definition create_transcript (video_url : string) (language : option string)
  : World → ToolResult * World :=
  λ w,
    let videoId := extractVideoId video_url in
    if negb (is_video_id videoId) then
      (error_result "Invalid YouTube URL or ID.", w)
    else
      match create_transcript_try videoId language w with
      | (Ok r, w') => (r, w')
      | (Throw error, w') =>
          (error_result ("Failed to create transcript: " +:+ message_of error), w')
      end.


(** ** Facts about the extraction *)

Lemma capture_here_valid literal s id :
  capture_here literal s = Some id → is_video_id id = true.
Proof.
  unfold capture_here. destruct (strip_prefix literal s) as [rest|]; [|done].
  destruct (is_video_id (String.substring 0 11 rest)) eqn:E; [|done].
  by intros [= <-].
Qed.

Lemma first_alternative_valid literals s id :
  first_alternative literals s = Some id → is_video_id id = true.
Proof.
  induction literals as [|literal literals IH]; simpl; [done|].
  destruct (capture_here literal s) as [id'|] eqn:E; [|done].
  intros [= <-]. by eapply capture_here_valid.
Qed.

Lemma regexp_match_valid literals s id :
  regexp_match literals s = Some id → is_video_id id = true.
Proof.
  induction s as [|c s IH]; simpl.
  - destruct (first_alternative literals "") as [id'|] eqn:E; [|done].
    intros [= <-]. by eapply first_alternative_valid.
  - destruct (first_alternative literals (String c s)) as [id'|] eqn:E; [|done].
    intros [= <-]. by eapply first_alternative_valid.
Qed.

(** Whenever one of the patterns matches, the captured id passes the final
    test; the error is reached only through a [video_url] that no pattern
    matches. *)
Lemma first_match_valid ps video_url id :
  first_match ps video_url = Some id → is_video_id id = true.
Proof.
  induction ps as [|pattern ps IH]; simpl; [done|].
  destruct (regexp_match pattern video_url) as [id'|] eqn:E; [|done].
  intros [= <-]. by eapply regexp_match_valid.
Qed.

Lemma first_match_none ps video_url :
  (∀ pattern, pattern ∈ ps → regexp_match pattern video_url = None) →
  first_match ps video_url = None.
Proof.
  induction ps as [|pattern ps IH]; intros H; simpl; [done|].
  rewrite (H pattern) by left. apply IH. intros p Hp. apply H. by right.
Qed.

Lemma extractVideoId_invalid video_url :
  is_video_id (extractVideoId video_url) = false ↔
  (∀ pattern, pattern ∈ patterns → regexp_match pattern video_url = None)
  ∧ is_video_id video_url = false.
Proof.
  unfold extractVideoId. split.
  - destruct (first_match patterns video_url) as [id|] eqn:E; simpl.
    + intros H. by rewrite (first_match_valid _ _ _ E) in H.
    + intros H. split; [|done]. intros pattern Hin.
      unfold patterns in *. simpl in E.
      repeat match type of E with
      | context [regexp_match ?p video_url] =>
          destruct (regexp_match p video_url) eqn:?; [discriminate|]
      end.
      set_unfold in Hin. destruct Hin as [->|[->|[->|[]]]]; done.
  - intros [Hnone Hid]. by rewrite first_match_none.
Qed.

(** ** The claim about create_transcript *)

(** C9 — when no 11-character video id can be extracted from [video_url]
    (none of the URL patterns matches it and it is not itself an
    11-character id over [a-zA-Z0-9_-]), create_transcript returns the error
    envelope "Invalid YouTube URL or ID." and leaves the world as it was:
    the database is unchanged and no read, insert or update was issued. *)
Theorem invalid_video_url_is_rejected
    (video_url : string) (language : option string) (w : World) :
  (∀ pattern, pattern ∈ patterns → regexp_match pattern video_url = None) →
  is_video_id video_url = false →
  create_transcript video_url language w
  = ({| content := [mkBlock "text" "Invalid YouTube URL or ID."];
        isError := Some true |}, w) ∧
  db (create_transcript video_url language w).2 = db w ∧
  queries (create_transcript video_url language w).2 = queries w.
Proof.
  intros Hnone Hid.
  assert (H : is_video_id (extractVideoId video_url) = false)
    by (by apply extractVideoId_invalid).
  unfold create_transcript. rewrite H. done.
Qed.

(** ** Further properties of the extraction *)

Lemma string_app_cons (c : ascii) (a b : string) :
  String c a +:+ b = String c (a +:+ b).
Proof. reflexivity. Qed.

Lemma string_app_empty (b : string) : "" +:+ b = b.
Proof. reflexivity. Qed.

Lemma substring_app (a b : string) :
  String.substring 0 (String.length a) (a +:+ b) = a.
Proof.
  induction a as [|c a IH].
  - by destruct b.
  - change (String c (String.substring 0 (String.length a) (a +:+ b)) = String c a).
    by rewrite IH.
Qed.

Lemma is_video_id_length id : is_video_id id = true → String.length id = 11.
Proof.
  unfold is_video_id. intros H. apply andb_true_iff in H as [H _].
  by apply Nat.eqb_eq in H.
Qed.

(** A valid id that follows the literal is captured, whatever comes next. *)
Lemma capture_here_id id rest :
  is_video_id id = true →
  String.substring 0 11 (id +:+ rest) = id ∧
  (if is_video_id (String.substring 0 11 (id +:+ rest)) then Some id else None) = Some id.
Proof.
  intros H. pose proof (is_video_id_length id H) as Hlen.
  assert (E : String.substring 0 11 (id +:+ rest) = id).
  { rewrite <- Hlen. apply substring_app. }
  by rewrite E, H.
Qed.

Lemma strip_prefix_id_chars literal s rest :
  all_id_chars s = true → strip_prefix literal s = Some rest →
  all_id_chars literal = true.
Proof.
  revert s. induction literal as [|a literal IH]; intros s Hs H; [done|].
  destruct s as [|b s]; [done|]. simpl in *.
  apply andb_true_iff in Hs as [Hb Hs].
  destruct (Ascii.eqb_spec a b) as [->|]; [|done].
  rewrite Hb. simpl. by eapply IH.
Qed.

Lemma first_alternative_id_chars literals s :
  all_id_chars s = true →
  forallb (λ literal, negb (all_id_chars literal)) literals = true →
  first_alternative literals s = None.
Proof.
  intros Hs. induction literals as [|literal literals IH]; simpl; [done|].
  intros H. apply andb_true_iff in H as [Hl H].
  unfold capture_here.
  destruct (strip_prefix literal s) as [rest|] eqn:E; [|by apply IH].
  apply strip_prefix_id_chars in E; [|done]. by rewrite E in Hl.
Qed.

Lemma regexp_match_id_chars literals s :
  all_id_chars s = true →
  forallb (λ literal, negb (all_id_chars literal)) literals = true →
  regexp_match literals s = None.
Proof.
  intros Hs Hl. induction s as [|c s IH]; simpl.
  - by rewrite first_alternative_id_chars.
  - rewrite first_alternative_id_chars by done.
    simpl in Hs. apply andb_true_iff in Hs as [_ Hs]. by apply IH.
Qed.

(** X19 — a bare video id is taken as it is.  A string of exactly eleven
    characters of [a-zA-Z0-9_-] matches none of the URL patterns, each of
    which needs a full stop or a slash, and is itself the extracted id. *)
Theorem bare_id_is_extracted (s : string) :
  is_video_id s = true →
  first_match patterns s = None ∧ extractVideoId s = s.
Proof.
  intros H. unfold is_video_id in H. apply andb_true_iff in H as [_ Hs].
  assert (E : first_match patterns s = None).
  { unfold patterns. simpl. by rewrite !regexp_match_id_chars. }
  split; [done|]. unfold extractVideoId. by rewrite E.
Qed.

Ltac spell_prefix :=
  rewrite ?string_app_cons, ?string_app_empty.

(** X20 — the usual addresses of a video give back its id.  For every valid
    id and whatever follows it, the id is extracted from the watch address
    and from the youtu.be address.  It is extracted from the embed address
    provided the first pattern (watch or youtu.be) does not occur in the id
    followed by the rest, and from the /v/ address provided neither the
    first nor the embed pattern does: each pattern is tried on the whole
    input, in order, before the next one. *)
Theorem canonical_urls_extract_id (id rest : string) :
  is_video_id id = true →
  extractVideoId ("https://www.youtube.com/watch?v=" +:+ id +:+ rest) = id ∧
  extractVideoId ("https://youtu.be/" +:+ id +:+ rest) = id ∧
  (regexp_match ["youtube.com/watch?v="; "youtu.be/"] (id +:+ rest) = None →
   extractVideoId ("https://www.youtube.com/embed/" +:+ id +:+ rest) = id ∧
   (regexp_match ["youtube.com/embed/"] (id +:+ rest) = None →
    extractVideoId ("https://www.youtube.com/v/" +:+ id +:+ rest) = id)).
Proof.
  intros H. destruct (capture_here_id id rest H) as [Hsub _].
  unfold extractVideoId, patterns. split_and!.
  - spell_prefix. cbn [first_match regexp_match first_alternative capture_here
                       strip_prefix Ascii.eqb Bool.eqb].
    by rewrite Hsub, H.
  - spell_prefix. cbn [first_match regexp_match first_alternative capture_here
                       strip_prefix Ascii.eqb Bool.eqb].
    by rewrite Hsub, H.
  - intros Hno. split.
    + spell_prefix. cbn [first_match regexp_match first_alternative capture_here
                         strip_prefix Ascii.eqb Bool.eqb].
      rewrite Hno. cbn [first_match regexp_match first_alternative capture_here
                        strip_prefix Ascii.eqb Bool.eqb].
      by rewrite Hsub, H.
    + intros Hno2.
      spell_prefix. cbn [first_match regexp_match first_alternative capture_here
                         strip_prefix Ascii.eqb Bool.eqb].
      rewrite Hno. cbn [first_match regexp_match first_alternative capture_here
                        strip_prefix Ascii.eqb Bool.eqb].
      rewrite Hno2. cbn [first_match regexp_match first_alternative capture_here
                         strip_prefix Ascii.eqb Bool.eqb].
      by rewrite Hsub, H.
Qed.

(** ** Further properties of create_transcript *)

Lemma or_else_truthy (x : option string) (fallback : string) :
  truthy (Some fallback) = true → truthy (Some (or_else x fallback)) = true.
Proof.
  intros H. unfold or_else. destruct x as [[|c s]|]; simpl; done.
Qed.

(** What a query of a call satisfies, [issued] being the queries of that
    call and [w] the world it started in.  An update names neither the user
    nor the video: it filters by the id of the row alone. *)
Definition sound_query (w : World) (issued : list Query) (q : Query) : Prop :=
  match q with
  | ReadPreferredLanguage u => u = userId
  | SelectTranscript u v => u = userId ∧ is_video_id v = true
  | InsertTranscript row =>
      user_id row = userId ∧ is_video_id (video_id row) = true ∧
      status row = "processing" ∧ source_kind row = "auto" ∧ row_text row = "" ∧
      created_at row = updated_at row ∧
      truthy (Some (video_title row)) = true ∧ truthy (Some (language row)) = true
  | UpdateTranscript id _ =>
      ∃ row, InsertTranscript row ∈ issued ∧ (db_insert (db w) row).1 = Ok id
  end.

Definition is_read (q : Query) : bool :=
  match q with
  | ReadPreferredLanguage _ | SelectTranscript _ _ => true
  | _ => false
  end.

Definition is_succeeded (patch : Patch) : bool :=
  match patch with Succeeded _ _ _ _ _ => true | Failed _ _ => false end.

(** Runs the handler symbolically, one case per path through it. *)
Ltac run_handler :=
  unfold create_transcript, create_transcript_try, try_catch, await,
    await_preferred_language, await_select, await_insert, await_update, now, throw;
  unfold mbind, M_bind, mret, M_ret;
  repeat (case_match; simpl in *; simplify_eq);
  repeat match goal with
         | H : negb _ = false |- _ => apply negb_false_iff in H
         end;
  rewrite <- ?app_assoc.

Ltac sound_queries :=
  repeat (apply Forall_cons_2; [|]); try apply Forall_nil_2;
  simpl; split_and?; try done; try (by apply or_else_truthy);
  try (eexists; split;
       [ eauto 10 using list_elem_of_here, list_elem_of_further
       | match goal with H : db_insert _ _ = _ |- _ => by rewrite H end ]).

(** X21 — what a call asks of the database.  Whatever the input, the
    queries of one call are added after those already issued.  The
    preference lookup is for the authenticated user; the transcript lookup
    and the inserted row are for that user and for a video id that passed
    the 11-character test; the inserted row has status "processing", source
    "auto", an empty text, equal creation and update instants and a
    non-empty title and language.  An update names neither user nor video:
    it addresses, by its id alone, the row that the insert of the same call
    returned.  A call that issued only reads leaves the database as it
    was. *)
Theorem create_transcript_queries
    (video_url : string) (language : option string) (w : World) :
  ∃ issued,
    queries (create_transcript video_url language w).2 = queries w ++ issued ∧
    Forall (sound_query w issued) issued ∧
    (forallb is_read issued = true → db (create_transcript video_url language w).2 = db w).
Proof.
  run_handler;
    first [ exists []; split; [by rewrite app_nil_r|]; split; [apply Forall_nil_2|done]
          | eexists; split; [reflexivity|]; split; [sound_queries|simpl; done] ].
Qed.

Lemma app_self_nil {A} (q l : list A) : q = q ++ l → l = [].
Proof.
  intros H. apply (app_inv_head q). by rewrite app_nil_r.
Qed.

(** X22 — a row that was inserted is always updated.  When a call inserts a
    row and the insert succeeds, the last query of the call is an update of
    the new row, and the envelope reports success exactly when that update
    marks the row succeeded (otherwise the row is marked failed and the
    envelope is an error).  When the insert fails, it is the last query and
    the envelope is the error "Failed to create transcript: " followed by
    the message. *)
Theorem insert_is_followed_by_update
    (video_url : string) (language : option string) (w : World)
    (issued : list Query) (row : NewRow) :
  queries (create_transcript video_url language w).2 = queries w ++ issued →
  InsertTranscript row ∈ issued →
  match (db_insert (db w) row).1 with
  | Ok id =>
      ∃ patch,
        last issued = Some (UpdateTranscript id patch) ∧
        (isError (create_transcript video_url language w).1 = None
         ↔ is_succeeded patch = true) ∧
        (is_succeeded patch = false →
         isError (create_transcript video_url language w).1 = Some true)
  | Throw e =>
      last issued = Some (InsertTranscript row) ∧
      (create_transcript video_url language w).1
      = error_result ("Failed to create transcript: " +:+ message_of e)
  end.
Proof.
  revert issued row. run_handler; intros issued row Heq Hin;
    rewrite <- ?app_assoc in Heq;
    first [ apply app_inv_head in Heq | apply app_self_nil in Heq ]; subst issued;
    set_unfold in Hin; destruct_or?; simplify_eq;
    repeat match goal with
           | H : db_insert _ _ = _ |- _ => rewrite H
           end; simpl;
    first [ done
          | split; done
          | eexists; split; [reflexivity|]; split; [split; done|done] ].
Qed.

(** X23 — a transcript that already succeeded is not created again.  When
    the user already has a row for the video with status "succeeded" and a
    non-empty text, the call issues only reads, leaves the database as it
    was, and answers that the transcript already exists, giving the row's
    id; the only other outcome is the error envelope of a failed
    preference lookup. *)
Theorem existing_transcript_is_kept
    (video_url : string) (language : option string) (w : World) (row : ExistingRow) :
  is_video_id (extractVideoId video_url) = true →
  db_select (db w) userId (extractVideoId video_url) = Some row →
  existing_status row = "succeeded" →
  truthy (existing_text row) = true →
  db (create_transcript video_url language w).2 = db w ∧
  (∃ issued,
     queries (create_transcript video_url language w).2 = queries w ++ issued ∧
     forallb is_read issued = true) ∧
  ((create_transcript video_url language w).1
   = result ("Transcript for video " +:+ extractVideoId video_url
             +:+ " already exists. ID: " +:+ existing_id row)
   ∨ ∃ e, getUserPreferredLanguage (db w) userId = Throw e ∧
          (create_transcript video_url language w).1
          = error_result ("Failed to create transcript: " +:+ message_of e)).
Proof.
  intros Hid Hsel Hst Htext. revert Hid Hsel.
  run_handler; intros Hid Hsel; simplify_eq;
    repeat match goal with
           | H : String.eqb (existing_status _) _ && truthy (existing_text _) = false |- _ =>
               rewrite Hst, Htext in H; discriminate H
           | H : negb (is_video_id _) = true, H' : is_video_id _ = true |- _ =>
               rewrite H' in H; discriminate H
           end;
    (split; [done|]);
    (split;
     [ first [ exists []; split; [by rewrite app_nil_r|done]
             | eexists; split; [reflexivity|done] ]
     | first [ by left
             | right; eexists; split; [first [eassumption|reflexivity]|done] ] ]).
Qed.

End CreateTranscript.

(** ** Examples *)

Example extract_watch_url :
  extractVideoId "https://www.youtube.com/watch?v=jNQXAC9IVRw" = "jNQXAC9IVRw".
Proof. reflexivity. Qed.

Example extract_short_url :
  extractVideoId "https://youtu.be/ScMzIvxBSi4?t=3" = "ScMzIvxBSi4".
Proof. reflexivity. Qed.

Example extract_embed_url :
  extractVideoId "youtube.com/embed/jNQXAC9IVRw" = "jNQXAC9IVRw".
Proof. reflexivity. Qed.

Example extract_bare_id :
  is_video_id (extractVideoId "jNQXAC9IVRw") = true.
Proof. reflexivity. Qed.

Example extract_short_id :
  is_video_id (extractVideoId "https://youtu.be/short") = false.
Proof. reflexivity. Qed.

(** A database that holds nothing and accepts every insert. *)
Definition demo_world : @World (list string) unit := mkWorld [] [] 0.

Definition demo_create_transcript :=
  @create_transcript (list string) unit "user-1" id
    (λ _ _, Ok None) (λ _, Ok (Some "Me at the zoo"))
    (λ _ _, Ok (mkCaptions "All right" () "en" "auto"))
    (λ _ _ _, None) (λ d row, (Ok "t-1", video_id row :: d))
    (λ d _ _, (None, d)) (λ n, pretty n).

Example create_transcript_issues_queries :
  length (queries (demo_create_transcript
                     "https://www.youtube.com/watch?v=jNQXAC9IVRw" None demo_world).2) = 4.
Proof. reflexivity. Qed.

Lemma invalid_video_url_is_rejected_witness :
  (∀ pattern, pattern ∈ patterns → regexp_match pattern "not a video" = None) ∧
  is_video_id "not a video" = false ∧
  demo_create_transcript "not a video" None demo_world
  = ({| content := [mkBlock "text" "Invalid YouTube URL or ID."];
        isError := Some true |}, demo_world).
Proof.
  assert (Hnone : ∀ pattern, pattern ∈ patterns → regexp_match pattern "not a video" = None).
  { intros pattern Hin. unfold patterns in Hin. set_unfold in Hin.
    destruct Hin as [->|[->|[->|[]]]]; reflexivity. }
  split; [exact Hnone|]. split; [reflexivity|].
  apply (@invalid_video_url_is_rejected (list string) unit "user-1" id
           (λ _ _, Ok None) (λ _, Ok (Some "Me at the zoo"))
           (λ _ _, Ok (mkCaptions "All right" () "en" "auto"))
           (λ _ _ _, None) (λ d row, (Ok "t-1", video_id row :: d))
           (λ d _ _, (None, d)) (λ n, pretty n)
           "not a video" None demo_world Hnone).
  reflexivity.
Defined.

Lemma canonical_urls_extract_id_witness :
  is_video_id "jNQXAC9IVRw" = true ∧
  extractVideoId ("https://www.youtube.com/watch?v=" +:+ "jNQXAC9IVRw" +:+ "&t=3")
  = "jNQXAC9IVRw".
Proof.
  split; [reflexivity|].
  exact (proj1 (canonical_urls_extract_id "jNQXAC9IVRw" "&t=3" eq_refl)).
Defined.

Lemma bare_id_is_extracted_witness :
  is_video_id "ScMzIvxBSi4" = true ∧
  first_match patterns "ScMzIvxBSi4" = None ∧ extractVideoId "ScMzIvxBSi4" = "ScMzIvxBSi4".
Proof.
  split; [reflexivity|]. exact (bare_id_is_extracted "ScMzIvxBSi4" eq_refl).
Defined.

Definition demo_row : NewRow :=
  {| user_id := "user-1"; video_id := "jNQXAC9IVRw"; video_title := "Me at the zoo";
     language := "en"; source_kind := "auto"; status := "processing"; row_text := "";
     created_at := "0"; updated_at := "0" |}.

Definition demo_issued : list (@Query unit) :=
  [ReadPreferredLanguage "user-1";
   SelectTranscript "user-1" "jNQXAC9IVRw";
   InsertTranscript demo_row;
   UpdateTranscript "t-1" (Succeeded "All right" () "en" "auto" "1")].

Lemma insert_is_followed_by_update_witness :
  let out := demo_create_transcript "https://www.youtube.com/watch?v=jNQXAC9IVRw" None
               demo_world in
  queries out.2 = queries demo_world ++ demo_issued ∧
  demo_issued !! 2 = Some (InsertTranscript demo_row) ∧
  last demo_issued = Some (UpdateTranscript "t-1" (Succeeded "All right" () "en" "auto" "1")) ∧
  isError out.1 = None.
Proof.
  intros out.
  assert (Hq : queries out.2 = queries demo_world ++ demo_issued) by reflexivity.
  assert (Hin : InsertTranscript demo_row ∈ demo_issued).
  { apply list_elem_of_lookup. exists 2. reflexivity. }
  split; [exact Hq|]. split; [reflexivity|].
  pose proof (@insert_is_followed_by_update (list string) unit "user-1" id
                (λ _ _, Ok None) (λ _, Ok (Some "Me at the zoo"))
                (λ _ _, Ok (mkCaptions "All right" () "en" "auto"))
                (λ _ _ _, None) (λ d row, (Ok "t-1", video_id row :: d))
                (λ d _ _, (None, d)) (λ n, pretty n)
                "https://www.youtube.com/watch?v=jNQXAC9IVRw" None demo_world
                demo_issued demo_row Hq Hin) as (patch & Hlast & Hiff & _).
  split; [reflexivity|]. apply Hiff.
  unfold demo_issued in Hlast. simpl in Hlast. injection Hlast as <-.
  reflexivity.
Defined.

Definition demo_existing : ExistingRow := mkExisting "t-0" "succeeded" (Some "All right").

Lemma existing_transcript_is_kept_witness :
  let create :=
    @create_transcript (list string) unit "user-1" id
      (λ _ _, Ok None) (λ _, Ok (Some "Me at the zoo"))
      (λ _ _, Ok (mkCaptions "All right" () "en" "auto"))
      (λ _ _ _, Some demo_existing) (λ d row, (Ok "t-1", video_id row :: d))
      (λ d _ _, (None, d)) (λ n, pretty n) in
  is_video_id (extractVideoId "https://youtu.be/jNQXAC9IVRw") = true ∧
  existing_status demo_existing = "succeeded" ∧
  truthy (existing_text demo_existing) = true ∧
  db (create "https://youtu.be/jNQXAC9IVRw" None demo_world).2 = db demo_world.
Proof.
  intros create. split; [reflexivity|]. split; [reflexivity|]. split; [reflexivity|].
  exact (proj1 (@existing_transcript_is_kept (list string) unit "user-1" id
                  (λ _ _, Ok None) (λ _, Ok (Some "Me at the zoo"))
                  (λ _ _, Ok (mkCaptions "All right" () "en" "auto"))
                  (λ _ _ _, Some demo_existing) (λ d row, (Ok "t-1", video_id row :: d))
                  (λ d _ _, (None, d)) (λ n, pretty n)
                  "https://youtu.be/jNQXAC9IVRw" None demo_world demo_existing
                  eq_refl eq_refl eq_refl eq_refl)).
Defined.

End Server.

(* ===================================================================== *)
(** * HttpClient: fetchWithRetry of lib/http-client                       *)
(* ===================================================================== *)
Module HttpClient.

(** How one call of [fetchWithTimeout] ends: with a response, with a
    rejection that is an Error named AbortError (what the timeout's
    [controller.abort()] produces), or with any other rejection. *)
Inductive fetched : Type :=
| Responded (status : Z) (statusText : string)
| Aborted
| Rejected (e : thrown).

Record Response : Type := mkResponse { status : Z; statusText : string }.

(** What the loop does besides returning: calls of [fetch] and pauses, in
    order.  The choice of a proxy dispatcher before the loop and the
    warnings written to the console are left out. *)
Inductive effect : Type :=
| Fetch
| Sleep (ms : Z).

(** [response.ok] *)
Definition ok (status : Z) : bool := Z.leb 200 status && Z.leb status 299.

(** [retryStatusCodes.has(status)] *)
Definition retryStatusCodes : list Z := [429; 500; 502; 503; 504]%Z.
Definition retryable (status : Z) : bool := existsb (Z.eqb status) retryStatusCodes.

(** [Math.min(1000 * Math.pow(2, attempt - 1), 5000)] *)
Definition delay (attempt : Z) : Z := Z.min (1000 * 2 ^ (attempt - 1)) 5000.

(** [error instanceof Error ? error : new Error(String(error))] *)
Definition as_error (e : thrown) : thrown :=
  match e with
  | Thrown rendering => Error rendering
  | _ => e
  end.

Section FetchWithRetry.

(** [fetch k] is how the call number [k] of [fetch] ends (counting from 0);
    [timeoutMs] and [maxRetries] are the options, both whole numbers. *)
Variable fetch : nat → fetched.
Variable timeoutMs : Z.
Variable maxRetries : Z.

(** The [for] loop: [fuel] iterations remain, [attempt] is the loop
    variable, [k] counts the calls of [fetch] made so far. *)
Fixpoint attempts (fuel : nat) (attempt : Z) (k : nat) (lastError : option thrown)
  : outcome Response * list effect :=
  match fuel with
  | 0 => (Throw (default (Error "Request failed after retries") lastError), [])
  | S fuel' =>
      let pause := if Z.ltb attempt maxRetries then [Sleep (delay attempt)] else [] in
      match fetch k with
      | Responded status statusText =>
          if ok status || negb (retryable status) then
            (Ok (mkResponse status statusText), [Fetch])
          else
            let lastError' := Error ("HTTP " +:+ pretty status +:+ ": " +:+ statusText) in
            let '(r, trace) := attempts fuel' (attempt + 1) (S k) (Some lastError') in
            (r, Fetch :: pause ++ trace)
      | Aborted =>
          (Throw (Error ("Request timeout after " +:+ pretty timeoutMs +:+ "ms")), [Fetch])
      | Rejected e =>
          let '(r, trace) := attempts fuel' (attempt + 1) (S k) (Some (as_error e)) in
          (r, Fetch :: pause ++ trace)
      end
  end.

Definition fetchWithRetry : outcome Response * list effect :=
  attempts (Z.to_nat maxRetries) 1 0 None.

(** A call of [fetch] after which the loop ends. *)
Definition settles (f : fetched) : bool :=
  match f with
  | Responded status _ => ok status || negb (retryable status)
  | Aborted => true
  | Rejected _ => false
  end.

(** What the function returns when the loop ends at [f], and the error it
    remembers otherwise. *)
Definition settled (f : fetched) : outcome Response :=
  match f with
  | Responded status statusText => Ok (mkResponse status statusText)
  | Aborted => Throw (Error ("Request timeout after " +:+ pretty timeoutMs +:+ "ms"))
  | Rejected e => Throw (as_error e)
  end.

Definition error_of (f : fetched) : thrown :=
  match f with
  | Responded status statusText =>
      Error ("HTTP " +:+ pretty status +:+ ": " +:+ statusText)
  | Aborted => Error ("Request timeout after " +:+ pretty timeoutMs +:+ "ms")
  | Rejected e => as_error e
  end.

(** [n] calls of [fetch] with a pause after each but the last, the pause
    after the attempt numbered [attempt] lasting [delay attempt]. *)
Fixpoint schedule (attempt : Z) (n : nat) : list effect :=
  match n with
  | 0 => []
  | 1 => [Fetch]
  | S n' => Fetch :: Sleep (delay attempt) :: schedule (attempt + 1) n'
  end.

(** ** Facts about the loop *)

Lemma attempts_settle (j fuel : nat) (attempt : Z) (k : nat) (last : option thrown) :
  Z.of_nat fuel = (maxRetries - attempt + 1)%Z →
  j < fuel →
  settles (fetch (k + j)) = true →
  (∀ i, i < j → settles (fetch (k + i)) = false) →
  attempts fuel attempt k last = (settled (fetch (k + j)), schedule attempt (S j)).
Proof.
  revert fuel attempt k last.
  induction j as [|j IH]; intros fuel attempt k last Hinv Hlt Hj Hbefore.
  - destruct fuel as [|fuel]; [lia|]. rewrite Nat.add_0_r in *. simpl.
    destruct (fetch k) as [st stt| |e]; simpl in *; [by rewrite Hj|done|done].
  - destruct fuel as [|fuel]; [lia|].
    assert (H0 : settles (fetch k) = false).
    { specialize (Hbefore 0). rewrite Nat.add_0_r in Hbefore. apply Hbefore. lia. }
    assert (Hp : Z.ltb attempt maxRetries = true) by (apply Z.ltb_lt; lia).
    assert (Hrec : ∀ last', attempts fuel (attempt + 1) (S k) last'
                   = (settled (fetch (k + S j)), schedule (attempt + 1) (S j))).
    { intros last'. replace (k + S j) with (S k + j) by lia.
      apply IH; [lia|lia|by replace (S k + j) with (k + S j) by lia|].
      intros i Hi. replace (S k + i) with (k + S i) by lia. apply Hbefore. lia. }
    cbn [attempts]. rewrite Hp.
    destruct (fetch k) as [st stt| |e]; simpl in H0; [rewrite H0|done|];
      rewrite Hrec; reflexivity.
Qed.

Lemma attempts_exhaust (fuel : nat) (attempt : Z) (k : nat) (last : option thrown) :
  Z.of_nat (S fuel) = (maxRetries - attempt + 1)%Z →
  (∀ i, i < S fuel → settles (fetch (k + i)) = false) →
  attempts (S fuel) attempt k last
  = (Throw (error_of (fetch (k + fuel))), schedule attempt (S fuel)).
Proof.
  revert attempt k last. induction fuel as [|fuel IH]; intros attempt k last Hinv Hall.
  - assert (H0 : settles (fetch k) = false).
    { specialize (Hall 0). rewrite Nat.add_0_r in Hall. apply Hall. lia. }
    assert (Hp : Z.ltb attempt maxRetries = false) by (apply Z.ltb_ge; lia).
    rewrite Nat.add_0_r. cbn [attempts]. rewrite Hp.
    destruct (fetch k) as [st stt| |e]; simpl in H0; [rewrite H0|done|]; reflexivity.
  - assert (H0 : settles (fetch k) = false).
    { specialize (Hall 0). rewrite Nat.add_0_r in Hall. apply Hall. lia. }
    assert (Hp : Z.ltb attempt maxRetries = true) by (apply Z.ltb_lt; lia).
    assert (Hrec : ∀ last', attempts (S fuel) (attempt + 1) (S k) last'
                   = (Throw (error_of (fetch (k + S fuel))),
                      schedule (attempt + 1) (S fuel))).
    { intros last'. replace (k + S fuel) with (S k + fuel) by lia.
      apply IH; [lia|]. intros i Hi. replace (S k + i) with (k + S i) by lia.
      apply Hall. lia. }
    change (attempts (S (S fuel)) attempt k last)
      with (let pause := if Z.ltb attempt maxRetries then [Sleep (delay attempt)] else [] in
            match fetch k with
            | Responded status statusText =>
                if ok status || negb (retryable status) then
                  (Ok (mkResponse status statusText), [Fetch])
                else
                  let '(r, trace) :=
                    attempts (S fuel) (attempt + 1) (S k)
                      (Some (Error ("HTTP " +:+ pretty status +:+ ": " +:+ statusText))) in
                  (r, Fetch :: pause ++ trace)
            | Aborted =>
                (Throw (Error ("Request timeout after " +:+ pretty timeoutMs +:+ "ms")),
                 [Fetch])
            | Rejected e =>
                let '(r, trace) :=
                  attempts (S fuel) (attempt + 1) (S k) (Some (as_error e)) in
                (r, Fetch :: pause ++ trace)
            end).
    rewrite Hp. cbv zeta.
    destruct (fetch k) as [st stt| |e]; simpl in H0; [rewrite H0|done|];
      rewrite Hrec; reflexivity.
Qed.

Lemma delay_bounds (attempt : Z) :
  (1 ≤ attempt)%Z → (1000 ≤ delay attempt ≤ 5000)%Z.
Proof.
  intros H. unfold delay.
  assert (0 < 2 ^ (attempt - 1))%Z by (apply Z.pow_pos_nonneg; lia). lia.
Qed.

Definition bounded_pause (e : effect) : Prop :=
  match e with
  | Fetch => True
  | Sleep ms => (1000 ≤ ms ≤ 5000)%Z
  end.

Lemma schedule_bounded (n : nat) (attempt : Z) :
  (1 ≤ attempt)%Z → Forall bounded_pause (schedule attempt n).
Proof.
  revert attempt. induction n as [|[|n] IH]; intros attempt H.
  - apply Forall_nil_2.
  - apply Forall_cons_2; [done|apply Forall_nil_2].
  - change (schedule attempt (S (S n)))
      with (Fetch :: Sleep (delay attempt) :: schedule (attempt + 1) (S n)).
    apply Forall_cons_2; [done|]. apply Forall_cons_2; [by apply delay_bounds|].
    apply IH. lia.
Qed.

Lemma attempts_schedule (fuel : nat) (attempt : Z) (k : nat) (last : option thrown) :
  Z.of_nat fuel = (maxRetries - attempt + 1)%Z →
  ∃ n, n ≤ fuel ∧ (0 < fuel → 0 < n) ∧
       (attempts fuel attempt k last).2 = schedule attempt n.
Proof.
  revert attempt k last. induction fuel as [|fuel IH]; intros attempt k last Hinv.
  - exists 0. split_and!; [lia|lia|done].
  - destruct (IH (attempt + 1)%Z (S k)) with (last := @None thrown) as (n0 & _ & _ & _);
      [lia|].
    assert (Hrec : ∀ last', ∃ n, n ≤ fuel ∧ (0 < fuel → 0 < n) ∧
                     (attempts fuel (attempt + 1) (S k) last').2 = schedule (attempt + 1) n).
    { intros last'. apply IH. lia. }
    cbn [attempts].
    destruct (fetch k) as [st stt| |e].
    + destruct (ok st || negb (retryable st)).
      * exists 1. split_and!; [lia|lia|done].
      * destruct (Hrec (Some (Error ("HTTP " +:+ pretty st +:+ ": " +:+ stt))))
          as (n & Hn & Hpos & Heq).
        destruct (attempts fuel (attempt + 1) (S k) _) as [r trace]. simpl in *.
        exists (S n). split_and!; [lia|lia|]. rewrite Heq.
        destruct fuel as [|fuel].
        -- assert (n = 0) as -> by lia.
           assert (Hp : Z.ltb attempt maxRetries = false) by (apply Z.ltb_ge; lia).
           by rewrite Hp.
        -- assert (Hp : Z.ltb attempt maxRetries = true) by (apply Z.ltb_lt; lia).
           rewrite Hp. destruct n as [|n]; [lia|]. reflexivity.
    + exists 1. split_and!; [lia|lia|done].
    + destruct (Hrec (Some (as_error e))) as (n & Hn & Hpos & Heq).
      destruct (attempts fuel (attempt + 1) (S k) _) as [r trace]. simpl in *.
      exists (S n). split_and!; [lia|lia|]. rewrite Heq.
      destruct fuel as [|fuel].
      * assert (n = 0) as -> by lia.
        assert (Hp : Z.ltb attempt maxRetries = false) by (apply Z.ltb_ge; lia).
        by rewrite Hp.
      * assert (Hp : Z.ltb attempt maxRetries = true) by (apply Z.ltb_lt; lia).
        rewrite Hp. destruct n as [|n]; [lia|]. reflexivity.
Qed.

Lemma fuel_invariant : (0 < maxRetries)%Z →
  Z.of_nat (Z.to_nat maxRetries) = (maxRetries - 1 + 1)%Z.
Proof. lia. Qed.

(** ** Properties of fetchWithRetry *)

(** X24 — the first settling call decides.  When call number j of [fetch]
    (j below maxRetries) is the first to end with a response that is ok or
    whose status is not one of 429, 500, 502, 503, 504, or with the abort of
    the timeout, the function returns that response, respectively throws
    "Request timeout after <timeoutMs>ms"; it has then called [fetch]
    exactly j+1 times, pausing after each earlier call, and calls it no
    more: an abort is never retried. *)
Theorem fetch_settles (j : nat) :
  j < Z.to_nat maxRetries →
  settles (fetch j) = true →
  (∀ i, i < j → settles (fetch i) = false) →
  fetchWithRetry = (settled (fetch j), schedule 1 (S j)).
Proof.
  intros Hj Hs Hbefore. unfold fetchWithRetry.
  apply (attempts_settle j (Z.to_nat maxRetries) 1 0 None); [lia|done|done|done].
Qed.

(** X25 — giving up.  When maxRetries is positive and every one of the
    maxRetries calls of [fetch] ends with a retryable status or with a
    rejection other than the abort, the function throws the error of the
    last call ("HTTP <status>: <statusText>" for a response, the rejection
    otherwise, wrapped in an Error when it is not one), after exactly
    maxRetries calls and without a pause after the last. *)
Theorem fetch_exhausts :
  (0 < maxRetries)%Z →
  (∀ i, i < Z.to_nat maxRetries → settles (fetch i) = false) →
  fetchWithRetry
  = (Throw (error_of (fetch (Z.to_nat maxRetries - 1))),
     schedule 1 (Z.to_nat maxRetries)).
Proof.
  intros Hpos Hall. unfold fetchWithRetry.
  destruct (Z.to_nat maxRetries) as [|fuel] eqn:E; [lia|].
  rewrite (attempts_exhaust fuel 1 0 None); [|lia|done].
  simpl. by rewrite Nat.sub_0_r.
Qed.

(** X26 — the shape of every run.  Whatever the network does, the function
    calls [fetch] at most maxRetries times, pauses only between two calls
    (never before the first nor after the last), the pause after attempt i
    lasting min(1000 * 2^(i-1), 5000) milliseconds, which lies between 1000
    and 5000; with maxRetries zero or negative it calls nothing and throws
    "Request failed after retries". *)
Theorem fetch_schedule :
  (∃ n, n ≤ Z.to_nat maxRetries ∧
        ((0 < maxRetries)%Z → 0 < n) ∧
        fetchWithRetry.2 = schedule 1 n) ∧
  Forall bounded_pause fetchWithRetry.2 ∧
  ((maxRetries ≤ 0)%Z →
   fetchWithRetry = (Throw (Error "Request failed after retries"), [])).
Proof.
  assert (Hshape : ∃ n, n ≤ Z.to_nat maxRetries ∧ ((0 < maxRetries)%Z → 0 < n) ∧
                        fetchWithRetry.2 = schedule 1 n).
  { unfold fetchWithRetry. destruct (Z_lt_le_dec 0 maxRetries) as [Hpos|Hneg].
    - destruct (attempts_schedule (Z.to_nat maxRetries) 1 0 None) as (n & Hn & Hp & Heq);
        [lia|].
      exists n. split_and!; [done| |done]. intros _. apply Hp. lia.
    - exists 0. replace (Z.to_nat maxRetries) with 0 by lia. split_and!; [lia|lia|done]. }
  split_and!.
  - exact Hshape.
  - destruct Hshape as (n & _ & _ & ->). by apply schedule_bounded.
  - intros Hneg. unfold fetchWithRetry. by replace (Z.to_nat maxRetries) with 0 by lia.
Qed.

End FetchWithRetry.

(** ** A run against a failing, then recovering, network *)

(** The first call answers 503, the second is refused by the network, the
    third answers 404. *)
Definition demo_fetch (k : nat) : fetched :=
  match k with
  | 0 => Responded 503 "Service Unavailable"
  | 1 => Rejected (Thrown "socket hang up")
  | _ => Responded 404 "Not Found"
  end.

(** A server that always answers 503. *)
Definition demo_unavailable (k : nat) : fetched := Responded 503 "Service Unavailable".

Lemma fetch_settles_witness :
  fetchWithRetry demo_fetch 10000 3
  = (Ok (mkResponse 404 "Not Found"), [Fetch; Sleep 1000; Fetch; Sleep 2000; Fetch]).
Proof.
  apply (fetch_settles demo_fetch 10000 3 2).
  - vm_compute. lia.
  - reflexivity.
  - intros i Hi. destruct i as [|[|i]]; [reflexivity|reflexivity|lia].
Defined.

Lemma fetch_exhausts_witness :
  fetchWithRetry demo_unavailable 10000 3
  = (Throw (Error "HTTP 503: Service Unavailable"),
     [Fetch; Sleep 1000; Fetch; Sleep 2000; Fetch]).
Proof.
  apply (fetch_exhausts demo_unavailable 10000 3).
  - lia.
  - intros i _. reflexivity.
Defined.

End HttpClient.
